(** * Visual Builder: grid layout engine and edit history

    A shallow embedding of the layout and undo/redo logic of the visual
    builder:

    - [src/types/index.ts]: the [Component] record;
    - [src/app/page.tsx]: [calculateNextPosition], [createComponent],
      [addToHistory], [undo], [redo] and the handlers that feed them;
    - [components/DragAndDropArea.tsx]: [calculateGridPosition],
      [handleComponentReorder] and the in-place sort of the render body;
    - [components/TextComponent.tsx] / [ImageComponent.tsx]:
      [handleResizeStart] (both files carry the same resize logic).

    Grid coordinates and widths are JavaScript numbers that only ever hold
    integers here; they are modelled as [Z].  JavaScript arrays are lists;
    [undefined] is [None]. *)

From Stdlib Require Import ZArith Lia List Sorted.
From stdpp Require Import base decidable option list strings pretty.

Local Open Scope Z_scope.

(** ** Data model ([src/types/index.ts]) *)

Inductive ComponentKind := text | image.

Record Position := { x : Z; y : Z }.

Record Component := {
  id : string;
  type : ComponentKind;
  content : string;
  width : Z;
  position : Position;
  alt : option string
}.

(** [{ ...c, position: p }] *)
Definition withPosition (c : Component) (p : Position) : Component :=
  {| id := id c; type := type c; content := content c; width := width c;
     position := p; alt := alt c |}.

(** [{ ...c, width: w, position: { ...c.position, x: px } }] *)
Definition withWidthAndX (c : Component) (w px : Z) : Component :=
  {| id := id c; type := type c; content := content c; width := w;
     position := {| x := px; y := y (position c) |}; alt := alt c |}.

(** *** Row occupancy

    A block covers the cells [x, x + width) of its row.  Two blocks overlap
    when they sit on the same row and share a cell. *)

Definition covers (c : Component) (col : Z) : Prop :=
  x (position c) <= col < x (position c) + width c.

Definition overlaps (a b : Component) : Prop :=
  y (position a) = y (position b) /\ exists col, covers a col /\ covers b col.

Definition noOverlap (l : list Component) : Prop :=
  forall (i j : nat) (a b : Component),
    i <> j -> l !! i = Some a -> l !! j = Some b -> ~ overlaps a b.

(** Executable counterparts, used to evaluate concrete layouts. *)
Definition overlapsb (a b : Component) : bool :=
  bool_decide (y (position a) = y (position b))
  && bool_decide (Z.max (x (position a)) (x (position b))
                  < Z.min (x (position a) + width a) (x (position b) + width b)).

Fixpoint noOverlapb (l : list Component) : bool :=
  match l with
  | [] => true
  | c :: rest => forallb (fun d => negb (overlapsb c d)) rest && noOverlapb rest
  end.

(** The grid bound of the data model: [1 <= width <= 12] and
    [position.x + width <= 12]. *)
Definition inGrid (c : Component) : Prop :=
  1 <= width c <= 12 /\ x (position c) + width c <= 12.

(** ** JavaScript array primitives *)

(** [l.slice(0, e)]: a negative [e] counts from the end of the array. *)
Definition slice0 {A} (l : list A) (e : Z) : list A :=
  if decide (e < 0) then take (Z.to_nat (Z.of_nat (length l) + e)) l
  else take (Z.to_nat e) l.

(** [l[i]]: [undefined] outside [0 .. length-1]. *)
Definition index {A} (l : list A) (i : Z) : option A :=
  if decide (0 <= i) then l !! Z.to_nat i else None.

(** ** Placement ([calculateNextPosition], page.tsx) *)

Definition calculateNextPosition (components : list Component) : Position :=
  match components with
  | [] => {| x := 0; y := 0 |}
  | _ :: _ =>
    match components !! (length components - 1)%nat with
    | Some lastComponent =>
      let nextX := x (position lastComponent) + width lastComponent in
      if decide (nextX + 6 <= 12)
      then {| x := nextX; y := y (position lastComponent) |}
      else {| x := 0; y := y (position lastComponent) + 1 |}
    | None => {| x := 0; y := 0 |} (* index length-1 of a non-empty array: never taken *)
    end
  end.

(** ** Edit history ([addToHistory], [undo], [redo], page.tsx)

    The three React state cells [components], [history] and [historyIndex].
    The history code never looks inside a snapshot, so the snapshot type is
    a parameter: layouts by value, or references to array objects in the
    session model below.  [components] is [None] when the state cell holds
    [undefined] (which [history[newIndex]] yields out of range). *)

Section History.
Context {A : Type}.

Record HistoryState := {
  components : option A;
  history : list A;
  historyIndex : Z
}.

Definition emptyHistory (current : A) : HistoryState :=
  {| components := Some current; history := []; historyIndex := -1 |}.

Definition addToHistory (newComponents : A) (s : HistoryState) : HistoryState :=
  let newHistory := slice0 (history s) (historyIndex s + 1) ++ [newComponents] in
  if decide (50 < length newHistory)%nat
  then (* newHistory.shift(); the index is left alone *)
    {| components := components s;
       history := tail newHistory;
       historyIndex := historyIndex s |}
  else
    {| components := components s;
       history := newHistory;
       historyIndex := Z.of_nat (length newHistory) - 1 |}.

Definition undo (s : HistoryState) : HistoryState :=
  if decide (0 < historyIndex s) then
    let newIndex := historyIndex s - 1 in
    {| components := index (history s) newIndex;
       history := history s;
       historyIndex := newIndex |}
  else s.

Definition redo (s : HistoryState) : HistoryState :=
  if decide (historyIndex s < Z.of_nat (length (history s)) - 1) then
    let newIndex := historyIndex s + 1 in
    {| components := index (history s) newIndex;
       history := history s;
       historyIndex := newIndex |}
  else s.

(** [setComponents(c)] *)
Definition setComponents (c : A) (s : HistoryState) : HistoryState :=
  {| components := Some c; history := history s; historyIndex := historyIndex s |}.

(** The history operations as a command language. *)
Inductive HistoryOp := Commit (snapshot : A) | Undo | Redo.

Definition historyStep (s : HistoryState) (op : HistoryOp) : HistoryState :=
  match op with
  | Commit snapshot => addToHistory snapshot s
  | Undo => undo s
  | Redo => redo s
  end.

Definition historyRun (ops : list HistoryOp) (s : HistoryState) : HistoryState :=
  fold_left historyStep ops s.

(** The invariant of the data model: [-1 <= cursor < length(snapshots)]. *)
Definition cursorInRange (s : HistoryState) : Prop :=
  -1 <= historyIndex s < Z.of_nat (length (history s)).
End History.

Arguments HistoryState A : clear implicits.
Arguments HistoryOp A : clear implicits.

(** ** Reorder ([components/DragAndDropArea.tsx]) *)

Definition GRID_COLUMNS : Z := 12.

(** [calculateGridPosition].  The arguments stand for
    [Math.floor(dropX / gridWidth)] and [Math.floor(dropY / rowHeight)];
    the floating-point quotients themselves are outside the model, the
    clamping is the source's. *)
Definition calculateGridPosition (colFloor rowFloor : Z) : Position :=
  let gridX := Z.max 0 (Z.min (GRID_COLUMNS - 1) colFloor) in
  let gridY := Z.max 0 rowFloor in
  {| x := gridX; y := gridY |}.

(** The two [components.find] predicates of [handleComponentReorder]. *)
Definition isDragged (componentId : string) (c : Component) : bool :=
  bool_decide (id c = componentId).

Definition isTarget (componentId : string) (gridX gridY : Z) (c : Component) : bool :=
  bool_decide (id c <> componentId)
  && bool_decide (y (position c) = gridY)
  && bool_decide (x (position c) <= gridX)
  && bool_decide (gridX < x (position c) + width c).

(** The [components.map] callback of the swap branch. *)
Definition swapPositions (componentId : string)
    (draggedComponent targetComponent c : Component) : Component :=
  if decide (id c = componentId) then withPosition c (position targetComponent)
  else if decide (id c = id targetComponent) then withPosition c (position draggedComponent)
  else c.

(** The [components.map] callback of the free-cell branch. *)
Definition moveTo (componentId : string) (newPosition : Position) (c : Component) : Component :=
  if decide (id c = componentId) then withPosition c newPosition else c.

(** [handleComponentReorder]: the array handed to [onReorderComponents],
    or [None] when the handler returns before calling it. *)
Definition handleComponentReorder (components : list Component)
    (componentId : string) (colFloor rowFloor : Z) : option (list Component) :=
  let g := calculateGridPosition colFloor rowFloor in
  let gridX := x g in
  let gridY := y g in
  match find (isDragged componentId) components with
  | None => None
  | Some draggedComponent =>
    match find (isTarget componentId gridX gridY) components with
    | Some targetComponent =>
      Some (swapPositions componentId draggedComponent targetComponent <$> components)
    | None =>
      let newPosition :=
        if decide (GRID_COLUMNS < gridX + width draggedComponent)
        then {| x := Z.max 0 (GRID_COLUMNS - width draggedComponent); y := gridY |}
        else {| x := gridX; y := gridY |} in
      Some (moveTo componentId newPosition <$> components)
    end
  end.

(** The render body of [DragAndDropArea] runs
    [components.sort((a, b) => a.position.y - b.position.y || a.position.x - b.position.x)]
    on the array it was handed: [Array.prototype.sort] reorders that array
    object itself, and is stable. *)
Definition compareFn (a b : Component) : Z :=
  let dy := y (position a) - y (position b) in
  if decide (dy = 0) then x (position a) - x (position b) else dy.

Fixpoint insertSorted (c : Component) (l : list Component) : list Component :=
  match l with
  | [] => [c]
  | h :: rest =>
    if decide (compareFn c h <= 0) then c :: h :: rest
    else h :: insertSorted c rest
  end.

(** Stable sort: an element is put in front of the later elements that
    compare equal to it. *)
Definition Array_sort (l : list Component) : list Component :=
  foldr insertSorted [] l.

(** ** Resize ([handleResizeStart], TextComponent.tsx / ImageComponent.tsx) *)

Inductive Direction := left | right.

(** [Math.round(n / d)] for integers [n] and [d > 0]: [floor(n/d + 1/2)],
    ties going up. *)
Definition Math_round_div (n d : Z) : Z := (2 * n + d) / (2 * d).

(** The closure variables [finalWidth] and [finalPosition]. *)
Record ResizeState := { finalWidth : Z; finalPosition : Z }.

(** Mouse-down: the start values are captured from the rendered block. *)
Definition handleResizeStart (component : Component) : ResizeState :=
  {| finalWidth := width component; finalPosition := x (position component) |}.

(** [handleMouseMove]: the new closure state, and the block passed to
    [onUpdateResize] when there is such a call. *)
Definition handleMouseMove (component : Component) (direction : Direction)
    (startX clientX : Z) (st : ResizeState) : ResizeState * option Component :=
  let startWidth := width component in
  let startPosition := x (position component) in
  let deltaX := clientX - startX in
  let gridWidth := 100 in
  let deltaColumns := Math_round_div deltaX gridWidth in
  let newWidth :=
    match direction with
    | left => Z.max 1 (Z.min 12 (startWidth - deltaColumns))
    | right => Z.max 1 (Z.min 12 (startWidth + deltaColumns))
    end in
  let newPosition :=
    match direction with
    | left => startPosition + (startWidth - newWidth)
    | right => startPosition
    end in
  if decide (newPosition + newWidth <= 12 /\ 0 <= newPosition) then
    ({| finalWidth := newWidth; finalPosition := newPosition |},
     if decide (newWidth <> width component \/ newPosition <> x (position component))
     then Some (withWidthAndX component newWidth newPosition)
     else None)
  else (st, None).

(** [handleMouseUp]: the block passed to [onUpdate]. *)
Definition handleMouseUp (component : Component) (st : ResizeState) : Component :=
  withWidthAndX component (finalWidth st) (finalPosition st).

(** A whole drag: mouse-down on a handle, the pointer positions of the
    mouse-move events in order, mouse-up. *)
Definition resizeDrag (component : Component) (direction : Direction)
    (startX : Z) (moves : list Z) : Component :=
  handleMouseUp component
    (fold_left (fun st clientX => fst (handleMouseMove component direction startX clientX st))
               moves (handleResizeStart component)).

(** ** Session ([src/app/page.tsx] around [DragAndDropArea])

    The handlers build a fresh array and hand the same object both to
    [setComponents] and to [addToHistory]; the render of [DragAndDropArea]
    then sorts the [components] array it receives in place.  Snapshots are
    therefore references into a store of array objects, and a reference is
    the index at which the array was allocated. *)

Record App := {
  store : list (list Component);
  ui : HistoryState nat
}.

(** [useState([])], [useState([])], [useState(-1)] *)
Definition initialApp : App :=
  {| store := [[]]; ui := emptyHistory 0%nat |}.

(** The array the [components] state cell points to. *)
Definition current (a : App) : option (list Component) :=
  r ← components (ui a); store a !! r.

Definition createComponent (ty : ComponentKind) (timestamp : Z)
    (comps : list Component) : Component :=
  let position := calculateNextPosition comps in
  match ty with
  | text =>
    {| id := "text-" +:+ pretty timestamp;
       type := text;
       content := "# New Text Component

Enter your markdown content here...

- **Bold text**
- *Italic text*
- `Code snippets`";
       width := 6;
       position := position;
       alt := None |}
  | image =>
    {| id := "image-" +:+ pretty timestamp;
       type := image;
       content := "https://placehold.co/600x400";
       width := 6;
       position := position;
       alt := None |}
  end.

(** [setComponents(newComponents); addToHistory(newComponents);] on a
    freshly built array. *)
Definition commitArray (newComponents : list Component) (a : App) : App :=
  let r := length (store a) in
  {| store := store a ++ [newComponents];
     ui := addToHistory r (setComponents r (ui a)) |}.

(** The handlers read [components] first; on [undefined] that read throws
    before any state is set, and the state stays as it is. *)
Definition addComponent (ty : ComponentKind) (timestamp : Z) (a : App) : App :=
  match current a with
  | Some comps => commitArray (comps ++ [createComponent ty timestamp comps]) a
  | None => a
  end.

Definition updateComponent (updatedComponent : Component) (a : App) : App :=
  match current a with
  | Some comps =>
    commitArray
      ((fun c => if decide (id c = id updatedComponent) then updatedComponent else c) <$> comps) a
  | None => a
  end.

Definition deleteComponent (i : string) (a : App) : App :=
  match current a with
  | Some comps => commitArray (filter (fun c => id c <> i) comps) a
  | None => a
  end.

Definition reorderComponents (reorderedComponents : list Component) (a : App) : App :=
  commitArray reorderedComponents a.

(** A drop with [componentType = "move"]. *)
Definition handleDrop (componentId : string) (colFloor rowFloor : Z) (a : App) : App :=
  match current a with
  | Some comps =>
    match handleComponentReorder comps componentId colFloor rowFloor with
    | Some updatedComponents => reorderComponents updatedComponents a
    | None => a
    end
  | None => a
  end.

(** A resize drag on the [n]-th rendered block.  The listeners keep the
    [component] and [onUpdate] of the render in which the drag started, so
    mouse-up commits the start array with the blocks of that id replaced;
    the live previews before it are overwritten, and their debounced commit
    (a timer) is not modelled.  When that timer fires it sets [history] and
    [historyIndex] from the same closure, with the last preview array as
    the snapshot; [components] and the arrays themselves are not touched by
    it. *)
Definition handleResize (n : nat) (direction : Direction) (startX : Z)
    (moves : list Z) (a : App) : App :=
  match current a with
  | Some comps =>
    match comps !! n with
    | Some component => updateComponent (resizeDrag component direction startX moves) a
    | None => a
    end
  | None => a
  end.

(** Render of [DragAndDropArea]: the current array is sorted in place. *)
Definition render (a : App) : App :=
  match components (ui a) with
  | Some r =>
    match store a !! r with
    | Some comps => {| store := <[r := Array_sort comps]> (store a); ui := ui a |}
    | None => a
    end
  | None => a
  end.

Inductive Event :=
| AddBlock (ty : ComponentKind) (timestamp : Z)
| Reorder (componentId : string) (colFloor rowFloor : Z)
| Resize (n : nat) (direction : Direction) (startX : Z) (moves : list Z)
| DeleteBlock (i : string)
| UndoKey
| RedoKey.

Definition handle (a : App) (e : Event) : App :=
  match e with
  | AddBlock ty timestamp => addComponent ty timestamp a
  | Reorder componentId colFloor rowFloor => handleDrop componentId colFloor rowFloor a
  | Resize n direction startX moves => handleResize n direction startX moves a
  | DeleteBlock i => deleteComponent i a
  | UndoKey => {| store := store a; ui := undo (ui a) |}
  | RedoKey => {| store := store a; ui := redo (ui a) |}
  end.

(** One event: the handler runs, then the page renders.  (A render may
    also come without a state change, as on drag-over; sorting an array
    that is sorted already changes nothing.) *)
Definition step (a : App) (e : Event) : App := render (handle a e).

Definition run (events : list Event) (a : App) : App := fold_left step events a.

(** ** Placement as the specification words it

    The position that follows a given block [last]: same row when a block
    of the default width 6 still fits after it, else the start of the next
    row. *)
Definition positionAfter (last : Component) : Position :=
  let nextX := x (position last) + width last in
  if decide (nextX + 6 <= 12) then {| x := nextX; y := y (position last) |}
  else {| x := 0; y := y (position last) + 1 |}.

(** [clamp(v, lo, hi)] *)
Definition clamp (v lo hi : Z) : Z :=
  if decide (v < lo) then lo else if decide (hi < v) then hi else v.

(** ** Invariants of the session *)

(** The order the render sorts by: row first, then column. *)
Definition rowMajor (a b : Component) : Prop := compareFn a b <= 0.

(** Every array object of the store has been through the render's sort. *)
Definition storeSorted (a : App) : Prop :=
  Forall (fun arr => Array_sort arr = arr) (store a).

(** Every block of every array object is inside the grid. *)
Definition storeInGrid (a : App) : Prop :=
  Forall (Forall inGrid) (store a).

(** The event is a drop on a cell that another block occupies, the case in
    which [handleComponentReorder] swaps. *)
Definition dropsOnBlock (a : App) (e : Event) : Prop :=
  match e with
  | Reorder componentId colFloor rowFloor =>
    match current a with
    | Some comps =>
      let g := calculateGridPosition colFloor rowFloor in
      find (isTarget componentId (x g) (y g)) comps <> None
    | None => False
    end
  | _ => False
  end.

(** ** More of the page ([src/app/page.tsx])

    Content edits, the sample layout, clearing, and the keyboard
    shortcuts. *)

(** [{ ...component, content }] ([handleContentChange] of TextComponent.tsx,
    [handleUrlChange] of ImageComponent.tsx) *)
Definition withContent (c : Component) (newContent : string) : Component :=
  {| id := id c; type := type c; content := newContent; width := width c;
     position := position c; alt := alt c |}.

(** A content edit in the [n]-th rendered block: [onUpdate] is
    [updateComponent]. *)
Definition handleContentChange (n : nat) (newContent : string) (a : App) : App :=
  match current a with
  | Some comps =>
    match comps !! n with
    | Some component => updateComponent (withContent component newContent) a
    | None => a
    end
  | None => a
  end.

Definition sampleComponents : list Component :=
  [ {| id := "sample-text-1";
       type := text;
       content := "# Welcome to Visual Builder

This is a **professional visual builder** that allows you to create layouts with text and image components.

## Features
- Text components with markdown support
- Image components from URLs
- 12-grid system for responsive layouts
- Live preview mode
- Component resizing
- Undo/Redo functionality";
       width := 12;
       position := {| x := 0; y := 0 |};
       alt := None |};
    {| id := "sample-image-1";
       type := image;
       content := "https://placehold.co/800x400/4F46E5/FFFFFF?text=Sample+Image";
       width := 6;
       position := {| x := 0; y := 1 |};
       alt := None |};
    {| id := "sample-text-2";
       type := text;
       content := "## Getting Started

1. Click on components in the palette to add them
2. Edit content in the text areas
3. Resize components using the handles
4. Toggle between edit and preview modes
5. Use the preview button to see side-by-side comparison
6. Use **Ctrl+Z** to undo and **Ctrl+Y** to redo";
       width := 6;
       position := {| x := 6; y := 1 |};
       alt := None |} ].

(** [setComponents(sampleComponents); setHistory([sampleComponents]);
    setHistoryIndex(0);] with one array object. *)
Definition addSampleData (a : App) : App :=
  let r := length (store a) in
  {| store := store a ++ [sampleComponents];
     ui := {| components := Some r; history := [r]; historyIndex := 0 |} |}.

(** [setComponents([]); setHistory([]); setHistoryIndex(-1);] *)
Definition clearComponents (a : App) : App :=
  let r := length (store a) in
  {| store := store a ++ [[]];
     ui := {| components := Some r; history := []; historyIndex := -1 |} |}.

(** Everything the page lets the user do to the layout. *)
Inductive Action :=
| UserEvent (e : Event)
| EditContent (n : nat) (newContent : string)
| LoadSample
| ClearAll.

Definition handleAction (a : App) (act : Action) : App :=
  match act with
  | UserEvent e => handle a e
  | EditContent n newContent => handleContentChange n newContent a
  | LoadSample => addSampleData a
  | ClearAll => clearComponents a
  end.

Definition stepAction (a : App) (act : Action) : App := render (handleAction a act).

Definition runActions (acts : list Action) (a : App) : App := fold_left stepAction acts a.

(** *** Keyboard shortcuts *)

Record KeyboardEvent := {
  ctrlKey : bool;
  metaKey : bool;
  shiftKey : bool;
  key : string
}.

Definition KEY_Z : string := "z".
Definition KEY_Y : string := "y".

(** [handleKeyDown] of page.tsx: the shortcut it fires, if any. *)
Definition handleKeyDown (e : KeyboardEvent) : option Event :=
  if ctrlKey e || metaKey e then
    if bool_decide (key e = KEY_Z) && negb (shiftKey e) then Some UndoKey
    else if bool_decide (key e = KEY_Y) || (bool_decide (key e = KEY_Z) && shiftKey e)
    then Some RedoKey
    else None
  else None.

(** [handleKeyDown] of the earlier page built on [Canvas]
    (src/unnamed/part_002), written as three separate tests. *)
Definition handleKeyDown_canvas (e : KeyboardEvent) : option Event :=
  if (ctrlKey e || metaKey e) && bool_decide (key e = "z") && negb (shiftKey e)
  then Some UndoKey
  else if (ctrlKey e || metaKey e) && bool_decide (key e = "y")
  then Some RedoKey
  else if (ctrlKey e || metaKey e) && bool_decide (key e = "z") && shiftKey e
  then Some RedoKey
  else None.

(** ** Grid rows ([components/DragAndDropArea.tsx]) *)

(** [Math.max(...l)]; [None] is the [-Infinity] of the empty call. *)
Definition Math_max (l : list Z) : option Z :=
  foldr (fun v acc => Some (match acc with Some m => Z.max v m | None => v end)) None l.

Definition maxY (components : list Component) : Z :=
  match components with
  | [] => 0
  | _ :: _ =>
    match Math_max ((fun c => y (position c)) <$> components) with
    | Some m => m
    | None => 0 (* a non-empty argument list: never taken *)
    end
  end.

Definition gridRows (components : list Component) : Z := maxY components + 1.

(** The row count of [gridTemplateRows]: [Math.max(gridRows, 1)]. *)
Definition templateRows (components : list Component) : Z :=
  Z.max (gridRows components) 1.

(** Everything of a block but its position. *)
Definition unpositioned (c : Component) : string * ComponentKind * string * Z * option string :=
  (id c, type c, content c, width c, alt c).

#[global] Instance Position_eq_dec : EqDecision Position.
Proof. solve_decision. Defined.

(** ** What every session state satisfies *)

(** The cursor is in range, the list is within the cap, every reference
    points into the store, the [components] cell holds an array, and once
    there is a snapshot the array shown is the one under the cursor. *)
Definition uiInvariant (a : App) : Prop :=
  cursorInRange (ui a)
  /\ (length (history (ui a)) <= 50)%nat
  /\ Forall (fun r => (r < length (store a))%nat) (history (ui a))
  /\ (exists r, components (ui a) = Some r /\ (r < length (store a))%nat)
  /\ (historyIndex (ui a) = -1 /\ history (ui a) = []
      \/ 0 <= historyIndex (ui a)
         /\ components (ui a) = index (history (ui a)) (historyIndex (ui a))).

Definition appInvariant (a : App) : Prop := uiInvariant a /\ storeSorted a.


(** * Properties *)

(** ** Array primitives *)

Lemma slice0_take {A} (l : list A) (e : Z) :
  0 <= e -> slice0 l e = take (Z.to_nat e) l.
Proof. intros He. unfold slice0. case_decide; [lia | reflexivity]. Qed.

Lemma slice0_length_le {A} (l : list A) (e : Z) :
  (length (slice0 l e) <= length l)%nat.
Proof. unfold slice0. case_decide; rewrite length_take; lia. Qed.

Lemma slice0_length {A} (l : list A) (e : Z) :
  0 <= e -> length (slice0 l e) = Nat.min (Z.to_nat e) (length l).
Proof. intros He. rewrite slice0_take by done. apply length_take. Qed.

Lemma index_Some {A} (l : list A) (i : Z) :
  0 <= i < Z.of_nat (length l) -> exists a, index l i = Some a.
Proof.
  intros [Hlo Hhi]. unfold index. case_decide; [| lia].
  destruct (lookup_lt_is_Some_2 l (Z.to_nat i)) as [a Ha]; [lia | eauto].
Qed.

Lemma tail_length {A} (l : list A) : length (tail l) = (length l - 1)%nat.
Proof. destruct l; simpl; lia. Qed.

(** ** Edit history *)

Section HistoryFacts.
Context {A : Type}.
Implicit Types (s : HistoryState A) (snapshot : A).

Lemma addToHistory_components snapshot s :
  components (addToHistory snapshot s) = components s.
Proof. unfold addToHistory. case_decide; reflexivity. Qed.

Lemma addToHistory_length_le snapshot s :
  (length (history s) <= 50)%nat ->
  (length (history (addToHistory snapshot s)) <= 50)%nat.
Proof.
  intros Hlen. unfold addToHistory.
  pose proof (slice0_length_le (history s) (historyIndex s + 1)) as Hs.
  case_decide as Hover; simpl.
  - rewrite tail_length, length_app. simpl. lia.
  - lia.
Qed.

Lemma undo_history s : history (undo s) = history s.
Proof. unfold undo. case_decide; reflexivity. Qed.

Lemma redo_history s : history (redo s) = history s.
Proof. unfold redo. case_decide; reflexivity. Qed.

Lemma historyStep_length_le s op :
  (length (history s) <= 50)%nat ->
  (length (history (historyStep s op)) <= 50)%nat.
Proof.
  destruct op; simpl.
  - apply addToHistory_length_le.
  - now rewrite undo_history.
  - now rewrite redo_history.
Qed.

Lemma historyRun_length_le ops s :
  (length (history s) <= 50)%nat ->
  (length (history (historyRun ops s)) <= 50)%nat.
Proof.
  revert s. induction ops as [| op ops IH]; intros s Hs; simpl; [exact Hs |].
  apply IH, historyStep_length_le, Hs.
Qed.

(** After a commit the cursor sits on the last slot or beyond it. *)
Lemma addToHistory_cursor_at_end snapshot s :
  -1 <= historyIndex s ->
  Z.of_nat (length (history (addToHistory snapshot s))) - 1
    <= historyIndex (addToHistory snapshot s).
Proof.
  intros Hlo. unfold addToHistory.
  case_decide as Hover; simpl; [| lia].
  rewrite tail_length, length_app, slice0_length by lia. simpl. lia.
Qed.

Lemma redo_at_end s :
  Z.of_nat (length (history s)) - 1 <= historyIndex s -> redo s = s.
Proof. intros H. unfold redo. case_decide; [lia | reflexivity]. Qed.

Lemma iter_redo_at_end n s :
  Z.of_nat (length (history s)) - 1 <= historyIndex s -> Nat.iter n redo s = s.
Proof.
  intros H. induction n as [| n IH]; simpl; [reflexivity |].
  rewrite IH. now apply redo_at_end.
Qed.
End HistoryFacts.

(** C4.  Whatever sequence of commits, undos and redos is run from the
    empty history (cursor -1, no snapshot), the snapshot list never holds
    more than 50 entries. *)
Theorem history_length_never_exceeds_50 {A} (ops : list (HistoryOp A)) (cur : option A) :
  (length (history (historyRun ops
     {| components := cur; history := []; historyIndex := -1 |})) <= 50)%nat.
Proof. apply historyRun_length_le. simpl. lia. Qed.

(** C7.  With the cursor strictly inside the snapshot list and above 0,
    [undo] followed by [redo] makes the snapshot that was at the cursor the
    current layout again and brings the cursor back; with the cursor at 0
    or below, [undo] changes nothing. *)
Theorem undo_then_redo_restores {A} (s : HistoryState A) :
  (0 < historyIndex s < Z.of_nat (length (history s)) ->
     exists snapshot,
       index (history s) (historyIndex s) = Some snapshot
       /\ components (redo (undo s)) = Some snapshot
       /\ historyIndex (redo (undo s)) = historyIndex s
       /\ history (redo (undo s)) = history s)
  /\ (historyIndex s <= 0 -> undo s = s).
Proof.
  split.
  - intros [Hlo Hhi].
    destruct (index_Some (history s) (historyIndex s)) as [snapshot Hsnap]; [lia |].
    exists snapshot. split; [exact Hsnap |].
    unfold undo. case_decide; [| lia].
    unfold redo; simpl. case_decide; [| lia]. simpl.
    replace (historyIndex s - 1 + 1) with (historyIndex s) by lia.
    auto.
  - intros Hle. unfold undo. case_decide; [lia | reflexivity].
Qed.

Lemma undo_then_redo_restores_witness :
  let s := {| components := Some 12%nat; history := [10; 11; 12]%nat; historyIndex := 2 |} in
  components (redo (undo s)) = Some 12%nat /\ historyIndex (redo (undo s)) = 2.
Proof.
  intros s.
  destruct (proj1 (undo_then_redo_restores s)) as (snapshot & Hs & Hc & Hi & _).
  - simpl. lia.
  - split; [| exact Hi]. rewrite Hc, <- Hs. reflexivity.
Defined.

(** C8.  A commit keeps only the snapshots up to the cursor, appends the new
    one (dropping the oldest entry on overflow), and leaves the cursor at
    the end of the list: any number of [redo] calls afterwards changes
    nothing, so the discarded snapshots cannot be reached again. *)
Theorem commit_discards_redo_branch {A} (s : HistoryState A) (snapshot : A) :
  -1 <= historyIndex s ->
  let kept := take (Z.to_nat (historyIndex s + 1)) (history s) ++ [snapshot] in
  history (addToHistory snapshot s)
    = (if decide (50 < length kept)%nat then drop 1 kept else kept)
  /\ forall n, Nat.iter n redo (addToHistory snapshot s) = addToHistory snapshot s.
Proof.
  intros Hlo kept. split.
  - unfold addToHistory. rewrite slice0_take by lia. fold kept.
    case_decide; simpl; [| reflexivity].
    destruct kept; reflexivity.
  - intros n. apply iter_redo_at_end, addToHistory_cursor_at_end, Hlo.
Qed.

Lemma commit_discards_redo_branch_witness :
  let s := undo (undo {| components := Some 13%nat; history := [10; 11; 12; 13]%nat;
                         historyIndex := 3 |}) in
  history (addToHistory 20%nat s) = [10; 11; 20]%nat
  /\ Nat.iter 3 redo (addToHistory 20%nat s) = addToHistory 20%nat s.
Proof.
  intros s.
  destruct (commit_discards_redo_branch s 20%nat) as [_ Hredo].
  - vm_compute. discriminate.
  - split; [reflexivity | apply Hredo].
Defined.

(** C3 (as amended).  When a commit overflows the cap of 50, the oldest
    snapshot is dropped and the cursor keeps its value; because every slot
    moved down by one, that value is the index of the last slot, which holds
    the snapshot just committed, and a following [redo] changes nothing. *)
Theorem commit_overflow_keeps_cursor_on_last {A} (s : HistoryState A) (snapshot : A) :
  cursorInRange s ->
  let kept := take (Z.to_nat (historyIndex s + 1)) (history s) ++ [snapshot] in
  (50 < length kept)%nat ->
  history (addToHistory snapshot s) = drop 1 kept
  /\ historyIndex (addToHistory snapshot s) = historyIndex s
  /\ historyIndex (addToHistory snapshot s)
       = Z.of_nat (length (history (addToHistory snapshot s))) - 1
  /\ index (history (addToHistory snapshot s)) (historyIndex (addToHistory snapshot s))
       = Some snapshot
  /\ redo (addToHistory snapshot s) = addToHistory snapshot s.
Proof.
  intros [Hlo Hhi] kept Hover.
  assert (Hlen : length kept = S (Z.to_nat (historyIndex s + 1))).
  { unfold kept. rewrite length_app, length_take. simpl. lia. }
  assert (Hhist : history (addToHistory snapshot s) = drop 1 kept).
  { unfold addToHistory. rewrite slice0_take by lia. fold kept.
    case_decide; [| lia]. simpl. destruct kept; reflexivity. }
  assert (Hidx : historyIndex (addToHistory snapshot s) = historyIndex s).
  { unfold addToHistory. rewrite slice0_take by lia. fold kept.
    case_decide; [reflexivity | lia]. }
  assert (Hlast : historyIndex s = Z.of_nat (length (drop 1 kept)) - 1).
  { rewrite length_drop, Hlen. lia. }
  repeat split.
  - exact Hhist.
  - exact Hidx.
  - rewrite Hidx, Hhist. exact Hlast.
  - rewrite Hidx, Hhist. unfold index. case_decide; [| lia].
    rewrite lookup_drop. unfold kept.
    rewrite lookup_app_r by (rewrite length_take; lia).
    rewrite length_take.
    replace (1 + Z.to_nat (historyIndex s)
             - Nat.min (Z.to_nat (historyIndex s + 1)) (length (history s)))%nat
      with 0%nat by lia.
    reflexivity.
  - apply redo_at_end. rewrite Hidx, Hhist. lia.
Qed.

Lemma commit_overflow_keeps_cursor_on_last_witness :
  let s := historyRun (Commit <$> seq 0 50) (emptyHistory 0%nat) in
  cursorInRange s
  /\ history (addToHistory 50%nat s) = seq 1 50
  /\ historyIndex (addToHistory 50%nat s) = 49.
Proof.
  intros s.
  assert (Hs : history s = seq 0 50 /\ historyIndex s = 49) by (vm_compute; auto).
  assert (Hr : cursorInRange s).
  { unfold cursorInRange. destruct Hs as [-> ->]. rewrite length_seq. lia. }
  split; [exact Hr |].
  destruct (commit_overflow_keeps_cursor_on_last s 50%nat Hr) as (Hh & Hi & _).
  - destruct Hs as [-> ->]. rewrite length_app, length_take, length_seq. simpl. lia.
  - split; [rewrite Hh | rewrite Hi]; reflexivity.
Defined.

(** C3 (as stated) fails: the 51st commit in a row overflows the cap, and
    the cursor is then on the last slot, not on the second-to-last one. *)
Lemma commit_overflow_cursor_not_second_to_last :
  let s := historyRun (Commit <$> seq 0 50) (emptyHistory 0%nat) in
  let s' := addToHistory 50%nat s in
  (50 < length (slice0 (history s) (historyIndex s + 1) ++ [50%nat]))%nat
  /\ history s' = seq 1 50
  /\ historyIndex s' = Z.of_nat (length (history s')) - 1
  /\ historyIndex s' <> Z.of_nat (length (history s')) - 2
  /\ index (history s') (historyIndex s') = Some 50%nat.
Proof.
  intros s s'.
  assert (Hh : history s' = seq 1 50) by (vm_compute; reflexivity).
  assert (Hi : historyIndex s' = 49) by (vm_compute; reflexivity).
  split; [apply Nat.ltb_lt; vm_compute; reflexivity |].
  split; [exact Hh |].
  rewrite Hh, Hi.
  split; [vm_compute; reflexivity |].
  split; [vm_compute; discriminate |].
  vm_compute; reflexivity.
Qed.

(** ** Placement *)

Lemma calculateNextPosition_snoc (front : list Component) (last : Component) :
  calculateNextPosition (front ++ [last]) = positionAfter last.
Proof.
  unfold calculateNextPosition.
  replace (length (front ++ [last]) - 1)%nat with (length front)
    by (rewrite length_app; simpl; lia).
  rewrite list_lookup_middle by reflexivity.
  destruct front; reflexivity.
Qed.

(** C5 (as amended).  [calculateNextPosition] returns [{x:0, y:0}] on the
    empty array; otherwise, with [last] the last element of the
    [components] array and [nextX = last.position.x + last.width], it
    returns [{x: nextX, y: last.position.y}] when [nextX + 6 <= 12] and
    [{x: 0, y: last.position.y + 1}] otherwise; the elements before the
    last one play no part. *)
Theorem calculateNextPosition_by_last_element :
  calculateNextPosition [] = {| x := 0; y := 0 |}
  /\ (forall front last,
        x (position last) + width last + 6 <= 12 ->
        calculateNextPosition (front ++ [last])
          = {| x := x (position last) + width last; y := y (position last) |})
  /\ (forall front last,
        12 < x (position last) + width last + 6 ->
        calculateNextPosition (front ++ [last])
          = {| x := 0; y := y (position last) + 1 |})
  /\ (forall front front' last,
        calculateNextPosition (front ++ [last]) = calculateNextPosition (front' ++ [last])).
Proof.
  split; [reflexivity |]. repeat split.
  - intros front last Hfit. rewrite calculateNextPosition_snoc.
    unfold positionAfter. case_decide; [reflexivity | lia].
  - intros front last Hwrap. rewrite calculateNextPosition_snoc.
    unfold positionAfter. case_decide; [lia | reflexivity].
  - intros front front' last. now rewrite !calculateNextPosition_snoc.
Qed.

Lemma calculateNextPosition_by_last_element_witness :
  let a := {| id := "a"; type := text; content := ""; width := 6;
              position := {| x := 0; y := 0 |}; alt := None |} in
  let b := {| id := "b"; type := image; content := ""; width := 6;
              position := {| x := 6; y := 0 |}; alt := None |} in
  calculateNextPosition ([] ++ [a]) = {| x := 6; y := 0 |}
  /\ calculateNextPosition ([a] ++ [b]) = {| x := 0; y := 1 |}.
Proof.
  intros a b.
  destruct calculateNextPosition_by_last_element as (_ & Hfit & Hwrap & _).
  split.
  - apply (Hfit [] a). simpl. lia.
  - apply (Hwrap [a] b). simpl. lia.
Defined.

(** C5 (as stated) fails.  Three blocks are added, then the block added
    last, [text-3], is dragged onto the first one and swaps places with it.
    The render sorts the array, which now ends with [text-1]: the next
    position is computed after [text-1], at [{x:6, y:1}], while the position
    after the last-inserted block would be [{x:6, y:0}]. *)
Lemma next_position_not_after_last_inserted :
  let added := run [AddBlock text 1; AddBlock image 2; AddBlock text 3] initialApp in
  let a := step added (Reorder "text-3" 0 0) in
  exists before comps lastInserted,
    current added = Some before
    /\ (id <$> before) = ["text-1"; "image-2"; "text-3"]
    /\ current a = Some comps
    /\ (id <$> comps) = ["text-3"; "image-2"; "text-1"]
    /\ find (isDragged "text-3") comps = Some lastInserted
    /\ positionAfter lastInserted = {| x := 6; y := 0 |}
    /\ calculateNextPosition comps = {| x := 6; y := 1 |}
    /\ calculateNextPosition comps <> positionAfter lastInserted
    /\ position (createComponent image 4 comps) = {| x := 6; y := 1 |}.
Proof.
  eexists _, _, _.
  split; [vm_compute; reflexivity |].
  split; [vm_compute; reflexivity |].
  split; [vm_compute; reflexivity |].
  split; [vm_compute; reflexivity |].
  split; [vm_compute; reflexivity |].
  split; [vm_compute; reflexivity |].
  split; [vm_compute; reflexivity |].
  split; [vm_compute; discriminate |].
  vm_compute. reflexivity.
Qed.

(** ** Resize *)

Lemma clamp_max_min (v : Z) : Z.max 1 (Z.min 12 v) = clamp v 1 12.
Proof. unfold clamp. repeat case_decide; lia. Qed.

Lemma Math_round_div_100 (n : Z) :
  -50 <= n - 100 * Math_round_div n 100 < 50.
Proof.
  unfold Math_round_div.
  pose proof (Z.div_mod (2 * n + 100) (2 * 100) ltac:(lia)) as Hdm.
  pose proof (Z.mod_pos_bound (2 * n + 100) (2 * 100) ltac:(lia)) as Hb.
  lia.
Qed.

(** C6.  A mouse-move of a resize drag computes
    [deltaColumns = round(deltaPixels / 100)], the candidate width
    [clamp(startWidth + deltaColumns, 1, 12)] (right handle, [x] unchanged)
    or [clamp(startWidth - deltaColumns, 1, 12)] (left handle, [x] moved so
    that the right edge stays put); the candidate becomes the live value
    exactly when [x + width <= 12] and [x >= 0], and otherwise the previous
    live values stay and nothing is reported.  A block at [x = 0] of width 6
    dragged by 250 pixels on its right handle gets 3 more columns: width 9
    at [x = 0]. *)
Theorem resize_candidate_and_guard :
  (forall (component : Component) (direction : Direction) (startX clientX : Z)
          (st : ResizeState),
     let deltaColumns := Math_round_div (clientX - startX) 100 in
     let newWidth :=
       match direction with
       | right => clamp (width component + deltaColumns) 1 12
       | left => clamp (width component - deltaColumns) 1 12
       end in
     let newX :=
       match direction with
       | right => x (position component)
       | left => x (position component) + (width component - newWidth)
       end in
     -50 <= (clientX - startX) - 100 * deltaColumns < 50
     /\ newX + newWidth =
          match direction with
          | right => x (position component) + newWidth
          | left => x (position component) + width component
          end
     /\ (newX + newWidth <= 12 /\ 0 <= newX ->
         fst (handleMouseMove component direction startX clientX st)
           = {| finalWidth := newWidth; finalPosition := newX |})
     /\ (~ (newX + newWidth <= 12 /\ 0 <= newX) ->
         handleMouseMove component direction startX clientX st = (st, None)))
  /\ (forall (component : Component) (startX : Z) (st : ResizeState),
        x (position component) = 0 -> width component = 6 ->
        Math_round_div 250 100 = 3
        /\ handleMouseMove component right startX (startX + 250) st
           = ({| finalWidth := 9; finalPosition := 0 |},
              Some (withWidthAndX component 9 0))
        /\ resizeDrag component right startX [startX + 250]
           = withWidthAndX component 9 0).
Proof.
  split.
  - intros component direction startX clientX st deltaColumns newWidth newX.
    split; [apply Math_round_div_100 |].
    split; [destruct direction; subst newX; lia |].
    unfold handleMouseMove. fold deltaColumns.
    rewrite !clamp_max_min.
    split.
    + intros Hok. destruct direction; simpl in *; case_decide; tauto.
    + intros Hbad. destruct direction; simpl in *; case_decide; tauto.
  - intros component startX st Hx Hw.
    split; [reflexivity |].
    assert (Hmove : forall st', handleMouseMove component right startX (startX + 250) st'
                    = ({| finalWidth := 9; finalPosition := 0 |},
                       Some (withWidthAndX component 9 0))).
    { intros st'. unfold handleMouseMove.
      replace (startX + 250 - startX) with 250 by lia.
      rewrite Hx, Hw. reflexivity. }
    split; [apply Hmove |].
    unfold resizeDrag. simpl. rewrite Hmove. reflexivity.
Qed.

Lemma resize_candidate_and_guard_witness :
  let c := {| id := "A"; type := text; content := ""; width := 6;
              position := {| x := 0; y := 0 |}; alt := None |} in
  let st := handleResizeStart c in
  fst (handleMouseMove c right 0 250 st) = {| finalWidth := 9; finalPosition := 0 |}
  /\ handleMouseMove c left 300 100 st = (st, None).
Proof.
  intros c st.
  destruct resize_candidate_and_guard as [Hgen _].
  split.
  - destruct (Hgen c right 0 250 st) as (_ & _ & Hacc & _).
    apply Hacc. vm_compute. split; discriminate.
  - destruct (Hgen c left 300 100 st) as (_ & _ & _ & Hrej).
    apply Hrej. vm_compute. intros [_ Hneg]. apply Hneg. reflexivity.
Defined.

(** ** Reorder *)

Lemma find_isDragged_None (comps : list Component) (componentId : string) :
  (forall c, c ∈ comps -> id c <> componentId) ->
  find (isDragged componentId) comps = None.
Proof.
  induction comps as [| c rest IH]; intros Hnone; simpl; [reflexivity |].
  unfold isDragged at 1. rewrite bool_decide_eq_false_2.
  - apply IH. intros c' Hc'. apply Hnone. now right.
  - apply Hnone. now left.
Qed.

(** C9.  A reorder whose dragged id matches no block of the layout stops
    before [onReorderComponents] is called: no array is built, the current
    layout, the snapshot list and the cursor stay as they were. *)
Theorem reorder_unknown_id_is_noop (a : App) (comps : list Component)
    (componentId : string) (colFloor rowFloor : Z) :
  current a = Some comps ->
  (forall c, c ∈ comps -> id c <> componentId) ->
  handleComponentReorder comps componentId colFloor rowFloor = None
  /\ handleDrop componentId colFloor rowFloor a = a
  /\ handle a (Reorder componentId colFloor rowFloor) = a.
Proof.
  intros Hcur Hnone.
  assert (Hret : handleComponentReorder comps componentId colFloor rowFloor = None).
  { unfold handleComponentReorder. now rewrite find_isDragged_None. }
  assert (Hdrop : handleDrop componentId colFloor rowFloor a = a).
  { unfold handleDrop. now rewrite Hcur, Hret. }
  auto.
Qed.

Lemma reorder_unknown_id_is_noop_witness :
  let a := run [AddBlock text 1; AddBlock image 2] initialApp in
  handle a (Reorder "text-9" 3 0) = a.
Proof.
  intros a.
  refine (proj2 (proj2 (reorder_unknown_id_is_noop a
            (default [] (current a)) "text-9" 3 0 _ _))).
  - vm_compute. reflexivity.
  - intros c Hc. vm_compute in Hc.
    apply elem_of_cons in Hc as [-> | Hc]; [vm_compute; discriminate |].
    apply elem_of_cons in Hc as [-> | Hc]; [vm_compute; discriminate |].
    apply elem_of_nil in Hc. destruct Hc.
Defined.

(** *** Overlap *)

Lemma overlapsb_spec (a b : Component) : overlapsb a b = true <-> overlaps a b.
Proof.
  unfold overlapsb, overlaps, covers.
  rewrite andb_true_iff, !bool_decide_eq_true. split.
  - intros [Hy Hx]. split; [exact Hy |].
    exists (Z.max (x (position a)) (x (position b))). lia.
  - intros [Hy (col & Ha & Hb)]. split; [exact Hy | lia].
Qed.

Lemma overlaps_sym (a b : Component) : overlaps a b -> overlaps b a.
Proof. intros [Hy (col & Ha & Hb)]. split; [congruence | eauto]. Qed.

(** Overlap only looks at the position and the width of the two blocks. *)
Lemma overlaps_same_span (a a' b b' : Component) :
  position a' = position a -> width a' = width a ->
  position b' = position b -> width b' = width b ->
  overlaps a' b' -> overlaps a b.
Proof.
  unfold overlaps, covers. intros -> -> -> ->. trivial.
Qed.

Lemma noOverlap_cons (c : Component) (rest : list Component) :
  Forall (fun d => ~ overlaps c d) rest -> noOverlap rest -> noOverlap (c :: rest).
Proof.
  intros Hc Hrest i j a b Hij Ha Hb Hov.
  rewrite Forall_forall in Hc.
  destruct i as [| i], j as [| j]; simpl in *.
  - congruence.
  - injection Ha as <-. eapply Hc; [| exact Hov].
    eapply list_elem_of_lookup_2, Hb.
  - injection Hb as <-. eapply Hc; [| apply overlaps_sym, Hov].
    eapply list_elem_of_lookup_2, Ha.
  - eapply (Hrest i j); eauto.
Qed.

Lemma noOverlapb_sound (l : list Component) : noOverlapb l = true -> noOverlap l.
Proof.
  induction l as [| c rest IH]; simpl.
  - intros _ i j a b _ Ha. rewrite lookup_nil in Ha. discriminate.
  - rewrite andb_true_iff, forallb_forall. intros [Hc Hrest].
    apply noOverlap_cons; [| auto].
    apply Forall_forall. intros d Hd Hov.
    apply list_elem_of_In in Hd. specialize (Hc d Hd).
    apply overlapsb_spec in Hov. rewrite Hov in Hc. discriminate.
Qed.

Lemma find_Some_lookup {A} (p : A -> bool) (l : list A) (a : A) :
  find p l = Some a -> exists i, l !! i = Some a /\ p a = true.
Proof.
  intros Hf. apply find_some in Hf as [Hin Hp].
  apply list_elem_of_In, list_elem_of_lookup in Hin as [i Hi]. eauto.
Qed.

Lemma unique_id_lookup (l : list Component) (i j : nat) (a b : Component) :
  NoDup (id <$> l) -> l !! i = Some a -> l !! j = Some b -> id a = id b -> i = j.
Proof.
  intros Hnd Ha Hb Hid.
  apply (NoDup_lookup (id <$> l) i j (id a)); [exact Hnd | |].
  - rewrite list_lookup_fmap, Ha. reflexivity.
  - rewrite list_lookup_fmap, Hb, Hid. reflexivity.
Qed.

(** Where each block of a swapped layout takes its span from: the dragged
    block from the target, the target from the dragged block, every other
    block from itself. *)
Lemma swapPositions_span (comps : list Component) (componentId : string)
    (d t : Component) (di ti i : nat) (c : Component) :
  NoDup (id <$> comps) ->
  comps !! di = Some d -> comps !! ti = Some t ->
  id d = componentId -> id t <> componentId -> width d = width t ->
  comps !! i = Some c ->
  exists (k : nat) (src : Component),
    comps !! k = Some src
    /\ position (swapPositions componentId d t c) = position src
    /\ width (swapPositions componentId d t c) = width src
    /\ (k = ti /\ i = di \/ k = di /\ i = ti \/ k = i /\ i <> di /\ i <> ti).
Proof.
  intros Hnd Hd Ht Hidd Hidt Hw Hc.
  unfold swapPositions.
  destruct (decide (id c = componentId)) as [Hcd | Hcd].
  - assert (i = di) by (eapply unique_id_lookup; eauto; congruence).
    subst i. replace c with d in * by congruence.
    exists ti, t. simpl. repeat split; auto.
  - destruct (decide (id c = id t)) as [Hct | Hct].
    + assert (i = ti) by (eapply unique_id_lookup; eauto).
      subst i. replace c with t in * by congruence.
      exists di, d. simpl. repeat split; auto.
    + exists i, c. repeat split; auto.
      right; right. repeat split; auto; intros ->; congruence.
Qed.

(** C1 (as amended).  A drop on a cell occupied by another block swaps the
    positions of the two blocks: the dragged block takes the target's
    position, the target takes the dragged block's, widths are untouched and
    every other block is left as it is.  When, in addition, the ids are
    unique, the layout has no overlap and the two blocks have the same
    width, the resulting layout has no overlap either. *)
Theorem swap_equal_widths_no_overlap (comps : list Component) (componentId : string)
    (colFloor rowFloor : Z) (d t : Component) :
  find (isDragged componentId) comps = Some d ->
  find (isTarget componentId (x (calculateGridPosition colFloor rowFloor))
                             (y (calculateGridPosition colFloor rowFloor))) comps = Some t ->
  exists updated,
    handleComponentReorder comps componentId colFloor rowFloor = Some updated
    /\ updated = swapPositions componentId d t <$> comps
    /\ swapPositions componentId d t d = withPosition d (position t)
    /\ swapPositions componentId d t t = withPosition t (position d)
    /\ (forall c, id c <> id d -> id c <> id t -> swapPositions componentId d t c = c)
    /\ width <$> updated = width <$> comps
    /\ (NoDup (id <$> comps) -> noOverlap comps -> width d = width t ->
        noOverlap updated).
Proof.
  intros Hfd Hft.
  destruct (find_Some_lookup _ _ _ Hfd) as (di & Hd & Hpd).
  destruct (find_Some_lookup _ _ _ Hft) as (ti & Ht & Hpt).
  assert (Hidd : id d = componentId).
  { unfold isDragged in Hpd. now apply bool_decide_eq_true in Hpd. }
  assert (Hidt : id t <> componentId).
  { unfold isTarget in Hpt. rewrite !andb_true_iff in Hpt.
    destruct Hpt as [[[Hpt _] _] _]. now apply bool_decide_eq_true in Hpt. }
  exists (swapPositions componentId d t <$> comps).
  split; [unfold handleComponentReorder; now rewrite Hfd, Hft |].
  split; [reflexivity |].
  split; [unfold swapPositions; case_decide; [reflexivity | congruence] |].
  split; [unfold swapPositions; repeat case_decide; try congruence; reflexivity |].
  split; [intros c Hcd Hct; unfold swapPositions; repeat case_decide; congruence |].
  split.
  { rewrite <- list_fmap_compose. apply list_fmap_ext. intros i c _. simpl.
    unfold swapPositions. repeat case_decide; reflexivity. }
  intros Hnd Hno Hw i j a' b' Hij Ha Hb Hov.
  rewrite list_lookup_fmap in Ha, Hb.
  destruct (comps !! i) as [a |] eqn:Ea; [| discriminate].
  destruct (comps !! j) as [b |] eqn:Eb; [| discriminate].
  simpl in Ha, Hb. injection Ha as <-. injection Hb as <-.
  destruct (swapPositions_span comps componentId d t di ti i a)
    as (ka & sa & Hsa & Hpa & Hwa & Hka); auto.
  destruct (swapPositions_span comps componentId d t di ti j b)
    as (kb & sb & Hsb & Hpb & Hwb & Hkb); auto.
  apply (Hno ka kb sa sb); [lia | exact Hsa | exact Hsb |].
  eapply overlaps_same_span; [| | | | exact Hov]; auto.
Qed.

Lemma swap_equal_widths_no_overlap_witness :
  let blockAt i px py w :=
    {| id := i; type := text; content := ""; width := w;
       position := {| x := px; y := py |}; alt := None |} in
  let comps := [blockAt "A" 0 0 6; blockAt "B" 6 0 6; blockAt "C" 0 1 6] in
  let wide := [blockAt "A" 0 0 4; blockAt "B" 4 0 8] in
  noOverlap comps
  /\ (exists updated,
        handleComponentReorder comps "C" 7 0 = Some updated
        /\ updated = [blockAt "A" 0 0 6; blockAt "B" 0 1 6; blockAt "C" 6 0 6]
        /\ noOverlap updated)
  /\ (exists updated,
        handleComponentReorder wide "A" 4 0 = Some updated
        /\ updated = [blockAt "A" 4 0 4; blockAt "B" 0 0 8]
        /\ width <$> updated = [4; 8]).
Proof.
  intros blockAt comps wide.
  assert (Hno : noOverlap comps) by (apply noOverlapb_sound; vm_compute; reflexivity).
  split; [exact Hno |]. split.
  - destruct (swap_equal_widths_no_overlap comps "C" 7 0
                (blockAt "C" 0 1 6) (blockAt "B" 6 0 6))
      as (updated & Hret & Hupd & _ & _ & _ & _ & Hno').
    + vm_compute. reflexivity.
    + vm_compute. reflexivity.
    + exists updated. split; [exact Hret |]. split.
      * rewrite Hupd. vm_compute. reflexivity.
      * apply Hno'; [| exact Hno | reflexivity].
        apply (bool_decide_unpack _). vm_compute. exact I.
  - destruct (swap_equal_widths_no_overlap wide "A" 4 0
                (blockAt "A" 0 0 4) (blockAt "B" 4 0 8))
      as (updated & Hret & Hupd & _ & _ & _ & Hwidths & _).
    + vm_compute. reflexivity.
    + vm_compute. reflexivity.
    + exists updated. split; [exact Hret |]. split.
      * rewrite Hupd. vm_compute. reflexivity.
      * rewrite Hwidths. vm_compute. reflexivity.
Defined.

(** C1 (as stated) fails.  [A] covers columns 0-3 and [B] columns 4-11 of
    row 0; dropping [A] on column 4 swaps the two anchors, after which [A]
    covers columns 4-7 and [B] columns 0-7 of the same row. *)
Lemma swap_can_introduce_overlap :
  let blockAt i px py w :=
    {| id := i; type := text; content := ""; width := w;
       position := {| x := px; y := py |}; alt := None |} in
  let comps := [blockAt "A" 0 0 4; blockAt "B" 4 0 8] in
  NoDup (id <$> comps)
  /\ Forall inGrid comps
  /\ noOverlap comps
  /\ find (isTarget "A" (x (calculateGridPosition 4 0)) (y (calculateGridPosition 4 0))) comps
       = Some (blockAt "B" 4 0 8)
  /\ handleComponentReorder comps "A" 4 0 = Some [blockAt "A" 4 0 4; blockAt "B" 0 0 8]
  /\ Forall inGrid [blockAt "A" 4 0 4; blockAt "B" 0 0 8]
  /\ ~ noOverlap [blockAt "A" 4 0 4; blockAt "B" 0 0 8].
Proof.
  intros blockAt comps.
  split; [apply (bool_decide_unpack _); vm_compute; exact I |].
  split; [repeat constructor; vm_compute; discriminate |].
  split; [apply noOverlapb_sound; vm_compute; reflexivity |].
  split; [vm_compute; reflexivity |].
  split; [vm_compute; reflexivity |].
  split; [repeat constructor; vm_compute; discriminate |].
  intros Hno.
  apply (Hno 0%nat 1%nat (blockAt "A" 4 0 4) (blockAt "B" 0 0 8));
    [discriminate | reflexivity | reflexivity |].
  apply overlapsb_spec. vm_compute. reflexivity.
Qed.

(** ** Grid bound *)

(** C2: the swap branch of the reorder breaks the bound.  Three blocks are
    added, the third is widened to 12 columns on its own row, and is then
    dropped on the second block, which starts at column 6: the swap copies
    that anchor, and the block ends at column 18.  Every block was inside
    the grid, and no two overlapped, before the drop. *)
Theorem swap_breaks_grid_bound :
  let before := run [AddBlock text 1; AddBlock image 2; AddBlock text 3;
                     Resize 2 right 0 [600]] initialApp in
  let after := step before (Reorder "text-3" 7 0) in
  (exists comps,
     current before = Some comps /\ Forall inGrid comps /\ noOverlap comps
     /\ (fun c => (id c, x (position c), y (position c), width c)) <$> comps
        = [("text-1", 0, 0, 6); ("image-2", 6, 0, 6); ("text-3", 0, 1, 12)])
  /\ (exists comps c,
        current after = Some comps /\ c ∈ comps
        /\ id c = "text-3" /\ width c = 12 /\ x (position c) = 6
        /\ x (position c) + width c = 18
        /\ ~ inGrid c).
Proof.
  intros before after. split.
  - eexists. split; [vm_compute; reflexivity |].
    split; [repeat constructor; vm_compute; discriminate |].
    split; [apply noOverlapb_sound; vm_compute; reflexivity |].
    vm_compute. reflexivity.
  - eexists _, _. split; [vm_compute; reflexivity |].
    split; [apply list_elem_of_lookup; exists 1%nat; reflexivity |].
    repeat split.
    intros [_ Hbound]. vm_compute in Hbound. apply Hbound. reflexivity.
Qed.

(** ** The render's sort *)

Lemma rowMajor_total (a b : Component) : ~ rowMajor a b -> rowMajor b a.
Proof. unfold rowMajor, compareFn. repeat case_decide; lia. Qed.

Lemma insertSorted_HdRel (h c : Component) (l : list Component) :
  rowMajor h c -> HdRel rowMajor h l -> HdRel rowMajor h (insertSorted c l).
Proof.
  intros Hhc Hhl. destruct l as [| h' rest]; simpl.
  - now constructor.
  - case_decide; constructor; [exact Hhc |].
    now apply HdRel_inv in Hhl.
Qed.

Lemma insertSorted_Sorted (c : Component) (l : list Component) :
  Sorted rowMajor l -> Sorted rowMajor (insertSorted c l).
Proof.
  induction l as [| h rest IH]; intros Hs; simpl.
  - repeat constructor.
  - apply Sorted_inv in Hs as [Hrest Hhd].
    case_decide as Hch.
    + constructor; [now constructor | now constructor].
    + constructor; [now apply IH |].
      apply insertSorted_HdRel; [| exact Hhd].
      now apply rowMajor_total.
Qed.

Lemma Array_sort_Sorted (l : list Component) : Sorted rowMajor (Array_sort l).
Proof.
  induction l as [| c rest IH]; simpl; [constructor |].
  now apply insertSorted_Sorted.
Qed.

(** Sorting a sorted array changes nothing. *)
Lemma Array_sort_fixed (l : list Component) : Sorted rowMajor l -> Array_sort l = l.
Proof.
  induction l as [| c rest IH]; intros Hs; [reflexivity |].
  apply Sorted_inv in Hs as [Hrest Hhd].
  unfold Array_sort in *. simpl. rewrite IH by exact Hrest.
  destruct rest as [| h rest']; [reflexivity |].
  apply HdRel_inv in Hhd. simpl. case_decide; [reflexivity | contradiction].
Qed.

Lemma Array_sort_idem (l : list Component) : Array_sort (Array_sort l) = Array_sort l.
Proof. apply Array_sort_fixed, Array_sort_Sorted. Qed.

Lemma Forall_insertSorted (P : Component -> Prop) (c : Component) (l : list Component) :
  P c -> Forall P l -> Forall P (insertSorted c l).
Proof.
  intros Hc Hl. induction Hl as [| h rest Hh Hrest IH]; simpl.
  - now constructor.
  - case_decide; repeat constructor; auto.
Qed.

Lemma Forall_Array_sort (P : Component -> Prop) (l : list Component) :
  Forall P l -> Forall P (Array_sort l).
Proof.
  intros Hl. induction Hl as [| c rest Hc Hrest IH]; simpl; [constructor |].
  now apply Forall_insertSorted.
Qed.

(** ** Session invariants *)

Lemma commitArray_components (arr : list Component) (a : App) :
  components (ui (commitArray arr a)) = Some (length (store a)).
Proof. unfold commitArray. simpl. now rewrite addToHistory_components. Qed.

(** A handler leaves the store alone or allocates one array, which is then
    the current one. *)
Lemma handle_store (a : App) (e : Event) :
  store (handle a e) = store a
  \/ exists arr, store (handle a e) = store a ++ [arr]
                 /\ components (ui (handle a e)) = Some (length (store a)).
Proof.
  assert (Hcommit : forall arr,
    exists arr', store (commitArray arr a) = store a ++ [arr']
                 /\ components (ui (commitArray arr a)) = Some (length (store a))).
  { intros arr. exists arr. split; [reflexivity | apply commitArray_components]. }
  destruct e; simpl; auto.
  - unfold addComponent. destruct (current a); auto.
  - unfold handleDrop. destruct (current a); auto.
    destruct handleComponentReorder; [unfold reorderComponents |]; auto.
  - unfold handleResize. destruct (current a) as [comps |] eqn:Hcur; auto.
    destruct (comps !! n); auto.
    unfold updateComponent. rewrite Hcur. auto.
  - unfold deleteComponent. destruct (current a); auto.
Qed.

Lemma render_sorted (a : App) : storeSorted a -> render a = a.
Proof.
  intros Hs. unfold render.
  destruct (components (ui a)) as [r |]; [| reflexivity].
  destruct (store a !! r) as [comps |] eqn:Hr; [| reflexivity].
  unfold storeSorted in Hs.
  rewrite (Forall_lookup_1 _ _ _ _ Hs Hr), list_insert_id by exact Hr.
  now destruct a.
Qed.

Lemma render_allocated (sto : list (list Component)) (arr : list Component)
    (u : HistoryState nat) :
  components u = Some (length sto) ->
  render {| store := sto ++ [arr]; ui := u |}
    = {| store := sto ++ [Array_sort arr]; ui := u |}.
Proof.
  intros Hc. unfold render. simpl. rewrite Hc.
  rewrite list_lookup_middle by reflexivity.
  replace (length sto) with (length sto + 0)%nat at 1 by lia.
  rewrite insert_app_r. reflexivity.
Qed.

Lemma step_storeSorted (a : App) (e : Event) : storeSorted a -> storeSorted (step a e).
Proof.
  intros Hs. unfold step.
  destruct (handle_store a e) as [Hsame | (arr & Hnew & Hcur)].
  - rewrite render_sorted; unfold storeSorted; now rewrite Hsame.
  - destruct (handle a e) as [sto u]. simpl in *. subst sto.
    rewrite render_allocated by exact Hcur.
    unfold storeSorted. simpl. apply Forall_app. split; [exact Hs |].
    repeat constructor. apply Array_sort_idem.
Qed.

Lemma run_storeSorted (events : list Event) (a : App) :
  storeSorted a -> storeSorted (run events a).
Proof.
  revert a. induction events as [| e events IH]; intros a Hs; simpl; [exact Hs |].
  apply IH, step_storeSorted, Hs.
Qed.

Lemma initialApp_storeSorted : storeSorted initialApp.
Proof. repeat constructor. Qed.

(** ** Grid bound: the events that keep it *)

Lemma calculateNextPosition_fits (comps : list Component) :
  x (calculateNextPosition comps) + 6 <= 12.
Proof.
  unfold calculateNextPosition. destruct comps as [| c rest]; simpl; [lia |].
  destruct (_ !! _); simpl; [| lia]. case_decide; simpl; lia.
Qed.

Lemma createComponent_inGrid (ty : ComponentKind) (timestamp : Z) (comps : list Component) :
  inGrid (createComponent ty timestamp comps).
Proof.
  pose proof (calculateNextPosition_fits comps).
  unfold inGrid, createComponent. destruct ty; simpl; lia.
Qed.

Lemma handleMouseMove_bound (component : Component) (direction : Direction)
    (startX clientX : Z) (st : ResizeState) :
  1 <= finalWidth st <= 12 /\ finalPosition st + finalWidth st <= 12 ->
  let st' := fst (handleMouseMove component direction startX clientX st) in
  1 <= finalWidth st' <= 12 /\ finalPosition st' + finalWidth st' <= 12.
Proof.
  intros Hst. unfold handleMouseMove.
  case_decide as Hguard; simpl; [| exact Hst].
  destruct direction; lia.
Qed.

Lemma resizeDrag_inGrid (component : Component) (direction : Direction)
    (startX : Z) (moves : list Z) :
  inGrid component -> inGrid (resizeDrag component direction startX moves).
Proof.
  intros Hc. unfold resizeDrag, handleMouseUp, inGrid. simpl.
  assert (Hstart : 1 <= finalWidth (handleResizeStart component) <= 12
                   /\ finalPosition (handleResizeStart component)
                      + finalWidth (handleResizeStart component) <= 12).
  { unfold inGrid in Hc. simpl. lia. }
  revert Hstart. generalize (handleResizeStart component).
  induction moves as [| clientX moves IH]; intros st Hst; simpl; [lia |].
  apply IH. now apply handleMouseMove_bound.
Qed.

(** The free-cell branch of the reorder clamps the column. *)
Lemma moveTo_inGrid (comps : list Component) (componentId : string)
    (d : Component) (gridX gridY : Z) :
  NoDup (id <$> comps) ->
  Forall inGrid comps ->
  find (isDragged componentId) comps = Some d ->
  let newPosition :=
    if decide (GRID_COLUMNS < gridX + width d)
    then {| x := Z.max 0 (GRID_COLUMNS - width d); y := gridY |}
    else {| x := gridX; y := gridY |} in
  Forall inGrid (moveTo componentId newPosition <$> comps).
Proof.
  intros Hnd Hin Hfd newPosition.
  destruct (find_Some_lookup _ _ _ Hfd) as (di & Hd & Hpd).
  apply bool_decide_eq_true in Hpd.
  apply Forall_fmap, Forall_lookup. intros i c Hc. simpl.
  pose proof (Forall_lookup_1 _ _ _ _ Hin Hc) as Hcin.
  unfold moveTo. case_decide as Hid; [| exact Hcin].
  assert (i = di) by (eapply unique_id_lookup; eauto; congruence).
  subst i. replace c with d in * by congruence.
  unfold inGrid in *. simpl. subst newPosition. unfold GRID_COLUMNS in *.
  case_decide; simpl; lia.
Qed.

Lemma commitArray_storeInGrid (arr : list Component) (a : App) :
  storeInGrid a -> Forall inGrid arr -> storeInGrid (commitArray arr a).
Proof.
  intros Ha Harr. unfold storeInGrid, commitArray. simpl.
  apply Forall_app. split; [exact Ha | now repeat constructor].
Qed.

Lemma render_storeInGrid (a : App) : storeInGrid a -> storeInGrid (render a).
Proof.
  intros Ha. unfold render.
  destruct (components (ui a)) as [r |]; [| exact Ha].
  destruct (store a !! r) as [comps |] eqn:Hr; [| exact Ha].
  unfold storeInGrid in *. simpl.
  apply Forall_insert; [exact Ha |].
  apply Forall_Array_sort. exact (Forall_lookup_1 _ _ _ _ Ha Hr).
Qed.

Lemma current_inGrid (a : App) (comps : list Component) :
  storeInGrid a -> current a = Some comps -> Forall inGrid comps.
Proof.
  unfold current. intros Ha Hcur.
  destruct (components (ui a)) as [r |]; [| discriminate].
  simpl in Hcur. exact (Forall_lookup_1 _ _ _ _ Ha Hcur).
Qed.

(** Adding, deleting, resizing, undoing, redoing and dropping on a free
    cell all keep every block of a layout with unique ids inside the grid;
    the drop on an occupied cell is the one event left out. *)
Lemma step_keeps_grid_bound (a : App) (e : Event) :
  storeInGrid a ->
  (forall comps, current a = Some comps -> NoDup (id <$> comps)) ->
  ~ dropsOnBlock a e ->
  storeInGrid (step a e).
Proof.
  intros Ha Hnd Hfree. unfold step. apply render_storeInGrid.
  destruct e; simpl; try exact Ha.
  - unfold addComponent. destruct (current a) as [comps |] eqn:Hcur; [| exact Ha].
    apply commitArray_storeInGrid; [exact Ha |].
    apply Forall_app. split; [now apply (current_inGrid a) |].
    constructor; [apply createComponent_inGrid | constructor].
  - unfold handleDrop. unfold dropsOnBlock in Hfree.
    destruct (current a) as [comps |] eqn:Hcur; [| exact Ha].
    unfold handleComponentReorder.
    destruct (find (isDragged componentId) comps) as [d |] eqn:Hfd; [| exact Ha].
    destruct (find (isTarget _ _ _) comps) as [t |] eqn:Hft.
    + exfalso. apply Hfree. discriminate.
    + apply commitArray_storeInGrid; [exact Ha |].
      apply moveTo_inGrid; auto. now apply (current_inGrid a).
  - unfold handleResize. destruct (current a) as [comps |] eqn:Hcur; [| exact Ha].
    destruct (comps !! n) as [component |] eqn:Hn; [| exact Ha].
    unfold updateComponent. rewrite Hcur.
    pose proof (current_inGrid a comps Ha Hcur) as Hin.
    apply commitArray_storeInGrid; [exact Ha |].
    apply Forall_fmap, Forall_lookup. intros i c Hc. simpl.
    case_decide; [| exact (Forall_lookup_1 _ _ _ _ Hin Hc)].
    apply resizeDrag_inGrid. exact (Forall_lookup_1 _ _ _ _ Hin Hn).
  - unfold deleteComponent. destruct (current a) as [comps |] eqn:Hcur; [| exact Ha].
    apply commitArray_storeInGrid; [exact Ha |].
    pose proof (current_inGrid a comps Ha Hcur) as Hin.
    rewrite Forall_forall in *. intros c Hc.
    apply list_elem_of_filter in Hc as [_ Hc]. now apply Hin.
Qed.

(** ** The cursor stays inside the snapshot list *)

Lemma addToHistory_cursorInRange {A} (snapshot : A) (s : HistoryState A) :
  cursorInRange s -> cursorInRange (addToHistory snapshot s).
Proof.
  unfold cursorInRange, addToHistory. intros [Hlo Hhi].
  rewrite slice0_take by lia.
  case_decide as Hover; simpl.
  - rewrite tail_length. rewrite length_app, length_take in *. simpl in *. lia.
  - rewrite length_app. simpl. lia.
Qed.

Lemma undo_cursorInRange {A} (s : HistoryState A) :
  cursorInRange s -> cursorInRange (undo s).
Proof. unfold cursorInRange, undo. case_decide; simpl; lia. Qed.

Lemma redo_cursorInRange {A} (s : HistoryState A) :
  cursorInRange s -> cursorInRange (redo s).
Proof. unfold cursorInRange, redo. case_decide; simpl; lia. Qed.

(** Every history reached from the empty one satisfies the invariant of
    the data model, [-1 <= cursor < length(snapshots)]. *)
Lemma historyRun_cursorInRange {A} (ops : list (HistoryOp A)) (cur : option A) :
  cursorInRange (historyRun ops {| components := cur; history := []; historyIndex := -1 |}).
Proof.
  assert (Hgen : forall s : HistoryState A, cursorInRange s -> cursorInRange (historyRun ops s)).
  { induction ops as [| op ops IH]; intros s Hs; simpl; [exact Hs |].
    apply IH. destruct op; simpl.
    - now apply addToHistory_cursorInRange.
    - now apply undo_cursorInRange.
    - now apply redo_cursorInRange. }
  apply Hgen. unfold cursorInRange. simpl. lia.
Qed.

(** ** Undo and redo in the session *)

Lemma step_UndoKey (a : App) :
  storeSorted a -> step a UndoKey = {| store := store a; ui := undo (ui a) |}.
Proof. intros Hs. unfold step. simpl. now apply render_sorted. Qed.

Lemma step_RedoKey (a : App) :
  storeSorted a -> step a RedoKey = {| store := store a; ui := redo (ui a) |}.
Proof. intros Hs. unfold step. simpl. now apply render_sorted. Qed.

(** C10.  [undo] and [redo] leave the snapshot list as it is; only the
    cursor and the current layout can change.  In a running session this
    covers the array objects as well: the render that follows an undo or a
    redo sorts an array that is sorted already, so the list of snapshots and
    the contents of each one are what they were. *)
Theorem undo_redo_preserve_history :
  (forall (A : Type) (s : HistoryState A),
     history (undo s) = history s /\ history (redo s) = history s)
  /\ (forall events : list Event,
        let a := run events initialApp in
        history (ui (step a UndoKey)) = history (ui a)
        /\ store (step a UndoKey) = store a
        /\ history (ui (step a RedoKey)) = history (ui a)
        /\ store (step a RedoKey) = store a).
Proof.
  split.
  - intros A s. split; [apply undo_history | apply redo_history].
  - intros events a.
    assert (Hs : storeSorted a) by apply run_storeSorted, initialApp_storeSorted.
    rewrite step_UndoKey, step_RedoKey by exact Hs. simpl.
    rewrite undo_history, redo_history. auto.
Qed.

(** * Further properties *)

(** ** Edit history: how commit, undo and redo compose *)

Lemma kept_lookup_last {A} (h : list A) (c : Z) (snapshot : A) :
  -1 <= c < Z.of_nat (length h) ->
  (take (Z.to_nat (c + 1)) h ++ [snapshot]) !! Z.to_nat (c + 1) = Some snapshot.
Proof.
  intros Hc. rewrite lookup_app_r by (rewrite length_take; lia).
  rewrite length_take.
  replace (Z.to_nat (c + 1) - Nat.min (Z.to_nat (c + 1)) (length h))%nat with 0%nat by lia.
  reflexivity.
Qed.

Lemma kept_lookup_prev {A} (h : list A) (c : Z) (snapshot : A) :
  0 <= c < Z.of_nat (length h) ->
  (take (Z.to_nat (c + 1)) h ++ [snapshot]) !! Z.to_nat c = h !! Z.to_nat c.
Proof.
  intros Hc. rewrite lookup_app_l by (rewrite length_take; lia).
  apply lookup_take_lt. lia.
Qed.

Lemma undo_fires {A} (s : HistoryState A) :
  0 < historyIndex s ->
  undo s = {| components := index (history s) (historyIndex s - 1);
              history := history s;
              historyIndex := historyIndex s - 1 |}.
Proof. intros H. unfold undo. case_decide; [reflexivity | lia]. Qed.

Lemma redo_fires {A} (s : HistoryState A) :
  historyIndex s < Z.of_nat (length (history s)) - 1 ->
  redo s = {| components := index (history s) (historyIndex s + 1);
              history := history s;
              historyIndex := historyIndex s + 1 |}.
Proof. intros H. unfold redo. case_decide; [reflexivity | lia]. Qed.

Lemma addToHistory_at_cursor {A} (s : HistoryState A) (snapshot : A) :
  cursorInRange s ->
  historyIndex (addToHistory snapshot s)
    = Z.of_nat (length (history (addToHistory snapshot s))) - 1
  /\ index (history (addToHistory snapshot s)) (historyIndex (addToHistory snapshot s))
     = Some snapshot.
Proof.
  intros [Hlo Hhi]. unfold addToHistory. rewrite slice0_take by lia.
  pose proof (kept_lookup_last (history s) (historyIndex s) snapshot (conj Hlo Hhi)) as Hlast.
  set (kept := take (Z.to_nat (historyIndex s + 1)) (history s) ++ [snapshot]) in *.
  assert (Hlen : length kept = S (Z.to_nat (historyIndex s + 1))).
  { unfold kept. rewrite length_app, length_take. simpl. lia. }
  case_decide as Hover; simpl.
  - rewrite tail_length, Hlen. split; [lia |].
    unfold index. case_decide; [| lia].
    replace (tail kept) with (drop 1 kept) by (destruct kept; reflexivity).
    rewrite lookup_drop. rewrite <- Hlast. f_equal. lia.
  - rewrite Hlen. split; [lia |].
    unfold index. case_decide; [| lia].
    rewrite <- Hlast. f_equal. lia.
Qed.

(** X1.  A commit always leaves the cursor on the last slot, and that slot
    holds the snapshot just committed, with or without overflow. *)
Theorem commit_puts_cursor_on_snapshot {A} (s : HistoryState A) (snapshot : A) :
  cursorInRange s ->
  historyIndex (addToHistory snapshot s)
    = Z.of_nat (length (history (addToHistory snapshot s))) - 1
  /\ index (history (addToHistory snapshot s)) (historyIndex (addToHistory snapshot s))
     = Some snapshot.
Proof. apply addToHistory_at_cursor. Qed.

Lemma commit_puts_cursor_on_snapshot_witness :
  let s := {| components := Some 11%nat; history := [10; 11; 12]%nat; historyIndex := 1 |} in
  index (history (addToHistory 20%nat s)) (historyIndex (addToHistory 20%nat s))
    = Some 20%nat.
Proof.
  intros s. apply (commit_puts_cursor_on_snapshot s 20%nat).
  unfold cursorInRange. simpl. lia.
Defined.

(** X2.  Undo right after a commit shows the snapshot the cursor was on before
    the commit, also when the commit overflowed the cap; a redo after that
    shows the committed snapshot again. *)
Theorem undo_after_commit_restores_previous {A} (s : HistoryState A) (snapshot : A) :
  cursorInRange s ->
  0 <= historyIndex s ->
  exists previous,
    index (history s) (historyIndex s) = Some previous
    /\ components (undo (addToHistory snapshot s)) = Some previous
    /\ history (undo (addToHistory snapshot s)) = history (addToHistory snapshot s)
    /\ components (redo (undo (addToHistory snapshot s))) = Some snapshot
    /\ historyIndex (redo (undo (addToHistory snapshot s)))
       = historyIndex (addToHistory snapshot s).
Proof.
  intros Hr Hpos.
  destruct (addToHistory_at_cursor s snapshot Hr) as [Hend Hat].
  destruct Hr as [Hlo Hhi].
  destruct (index_Some (history s) (historyIndex s)) as [previous Hprev]; [lia |].
  exists previous. split; [exact Hprev |].
  assert (Hidx : 0 < historyIndex (addToHistory snapshot s)
                 /\ index (history (addToHistory snapshot s))
                          (historyIndex (addToHistory snapshot s) - 1) = Some previous).
  { rewrite <- Hprev. clear Hend Hat.
    unfold addToHistory. rewrite slice0_take by lia.
    pose proof (kept_lookup_prev (history s) (historyIndex s) snapshot (conj Hpos Hhi)) as Hk.
    set (kept := take (Z.to_nat (historyIndex s + 1)) (history s) ++ [snapshot]) in *.
    assert (Hlen : length kept = S (Z.to_nat (historyIndex s + 1))).
    { unfold kept. rewrite length_app, length_take. simpl. lia. }
    unfold index. case_decide as Hover; simpl.
    - assert (0 < historyIndex s) by lia. split; [lia |].
      repeat case_decide; try lia.
      replace (tail kept) with (drop 1 kept) by (destruct kept; reflexivity).
      rewrite lookup_drop, <- Hk. f_equal. lia.
    - rewrite Hlen. split; [lia |].
      repeat case_decide; try lia.
      rewrite <- Hk. f_equal. lia. }
  destruct Hidx as [Hgt Hprev'].
  rewrite (undo_fires _ Hgt). simpl.
  split; [exact Hprev' |]. split; [reflexivity |].
  rewrite redo_fires by (simpl; lia). simpl.
  replace (historyIndex (addToHistory snapshot s) - 1 + 1)
    with (historyIndex (addToHistory snapshot s)) by lia.
  auto.
Qed.

Lemma undo_after_commit_restores_previous_witness :
  let s := historyRun (Commit <$> seq 0 50) (emptyHistory 0%nat) in
  components (undo (addToHistory 50%nat s)) = Some 49%nat
  /\ components (redo (undo (addToHistory 50%nat s))) = Some 50%nat.
Proof.
  intros s.
  assert (Hs : history s = seq 0 50 /\ historyIndex s = 49) by (vm_compute; auto).
  destruct (undo_after_commit_restores_previous s 50%nat)
    as (previous & Hprev & Hundo & _ & Hredo & _).
  - unfold cursorInRange. destruct Hs as [-> ->]. rewrite length_seq. lia.
  - destruct Hs as [_ ->]. lia.
  - split; [| exact Hredo].
    rewrite Hundo, <- Hprev. vm_compute. reflexivity.
Defined.

(** X3.  The first commit cannot be undone: with the cursor at -1 a commit
    stores its snapshot in slot 0, and [undo] needs a cursor above 0.  The
    layout from before the first change is not in the history. *)
Theorem first_commit_cannot_be_undone {A} (s : HistoryState A) (snapshot : A) :
  historyIndex s = -1 ->
  history (addToHistory snapshot s) = [snapshot]
  /\ historyIndex (addToHistory snapshot s) = 0
  /\ undo (addToHistory snapshot s) = addToHistory snapshot s.
Proof.
  intros Hc.
  assert (Hs : addToHistory snapshot s
               = {| components := components s; history := [snapshot]; historyIndex := 0 |}).
  { unfold addToHistory. rewrite Hc. rewrite slice0_take by lia.
    change (Z.to_nat (-1 + 1)) with 0%nat. rewrite take_0.
    case_decide as Hover; [simpl in Hover; lia | reflexivity]. }
  rewrite Hs. auto.
Qed.

Lemma first_commit_cannot_be_undone_witness :
  components (ui (step (step initialApp (AddBlock text 1)) UndoKey))
    = components (ui (step initialApp (AddBlock text 1)))
  /\ undo (addToHistory 1%nat (emptyHistory 0%nat)) = addToHistory 1%nat (emptyHistory 0%nat).
Proof.
  split; [vm_compute; reflexivity |].
  apply (first_commit_cannot_be_undone (emptyHistory 0%nat) 1%nat). reflexivity.
Defined.

Lemma historyRun_snoc {A} (ops : list (HistoryOp A)) (op : HistoryOp A) (s : HistoryState A) :
  historyRun (ops ++ [op]) s = historyStep (historyRun ops s) op.
Proof. unfold historyRun. now rewrite fold_left_app. Qed.

(** X4.  A run of commits from the empty history keeps exactly the 50 most
    recent snapshots, oldest first, with the cursor on the newest. *)
Theorem commits_keep_most_recent_50 {A} (snapshots : list A) (cur : option A) :
  let s := historyRun (Commit <$> snapshots)
             {| components := cur; history := []; historyIndex := -1 |} in
  history s = drop (length snapshots - 50) snapshots
  /\ historyIndex s = Z.of_nat (length (history s)) - 1.
Proof.
  induction snapshots as [| snapshot snapshots IH] using rev_ind; [split; reflexivity |].
  rewrite fmap_app. simpl. rewrite historyRun_snoc. simpl.
  destruct IH as [Hh Hi].
  set (s := historyRun (Commit <$> snapshots) _) in *.
  assert (Hlen : length (history s) = Nat.min (length snapshots) 50).
  { rewrite Hh, length_drop. lia. }
  unfold addToHistory. rewrite slice0_take by lia.
  rewrite take_ge by lia.
  rewrite !length_app. simpl.
  case_decide as Hover; simpl.
  - rewrite tail_length, length_app. simpl. split; [| lia].
    replace (tail (history s ++ [snapshot])) with (drop 1 (history s ++ [snapshot]))
      by (destruct (history s); reflexivity).
    rewrite Hh, drop_app_le by (rewrite length_drop; lia).
    rewrite drop_drop, drop_app_le by lia.
    f_equal. f_equal. lia.
  - rewrite length_app. simpl. split; [| lia].
    rewrite Hh. rewrite drop_app_le by lia. f_equal. f_equal. lia.
Qed.

(** X5.  Redo followed by undo comes back to the snapshot at the cursor, for a
    cursor inside the list that has a snapshot after it. *)
Theorem redo_then_undo_restores {A} (s : HistoryState A) :
  0 <= historyIndex s < Z.of_nat (length (history s)) - 1 ->
  exists snapshot,
    index (history s) (historyIndex s) = Some snapshot
    /\ components (undo (redo s)) = Some snapshot
    /\ historyIndex (undo (redo s)) = historyIndex s
    /\ history (undo (redo s)) = history s.
Proof.
  intros [Hlo Hhi].
  destruct (index_Some (history s) (historyIndex s)) as [snapshot Hsnap]; [lia |].
  exists snapshot. split; [exact Hsnap |].
  rewrite redo_fires by lia.
  rewrite undo_fires by (simpl; lia). simpl.
  replace (historyIndex s + 1 - 1) with (historyIndex s) by lia.
  auto.
Qed.

Lemma redo_then_undo_restores_witness :
  let s := {| components := Some 10%nat; history := [10; 11; 12]%nat; historyIndex := 0 |} in
  components (undo (redo s)) = Some 10%nat /\ historyIndex (undo (redo s)) = 0.
Proof.
  intros s.
  destruct (redo_then_undo_restores s) as (snapshot & Hs & Hc & Hi & _).
  - simpl. lia.
  - split; [| exact Hi]. rewrite Hc, <- Hs. reflexivity.
Defined.

(** ** Reorder: what a drop changes and what it leaves alone *)

Lemma withPosition_same (c : Component) : withPosition c (position c) = c.
Proof. now destruct c. Qed.

Lemma swapPositions_unpositioned (componentId : string) (d t c : Component) :
  unpositioned (swapPositions componentId d t c) = unpositioned c.
Proof. unfold swapPositions. repeat case_decide; reflexivity. Qed.

Lemma moveTo_unpositioned (componentId : string) (p : Position) (c : Component) :
  unpositioned (moveTo componentId p c) = unpositioned c.
Proof. unfold moveTo. case_decide; reflexivity. Qed.

(** X7.  A drop only ever rewrites positions: the array keeps its length, and
    the ids, kinds, contents, widths and alt texts stay where they were, in
    the same order. *)
Theorem reorder_changes_positions_only (comps updated : list Component)
    (componentId : string) (colFloor rowFloor : Z) :
  handleComponentReorder comps componentId colFloor rowFloor = Some updated ->
  length updated = length comps
  /\ unpositioned <$> updated = unpositioned <$> comps.
Proof.
  unfold handleComponentReorder. intros Hret.
  destruct (find (isDragged componentId) comps) as [d |]; [| discriminate].
  destruct (find (isTarget _ _ _) comps) as [t |]; injection Hret as <-.
  - split; [apply length_fmap |].
    rewrite <- list_fmap_compose. apply list_fmap_ext.
    intros i c _. apply swapPositions_unpositioned.
  - split; [apply length_fmap |].
    rewrite <- list_fmap_compose. apply list_fmap_ext.
    intros i c _. apply moveTo_unpositioned.
Qed.

Lemma reorder_changes_positions_only_witness :
  exists updated,
    handleComponentReorder sampleComponents "sample-text-2" 2 1 = Some updated
    /\ length updated = 3%nat
    /\ id <$> updated = ["sample-text-1"; "sample-image-1"; "sample-text-2"]
    /\ position <$> updated
       = [{| x := 0; y := 0 |}; {| x := 6; y := 1 |}; {| x := 0; y := 1 |}].
Proof.
  eexists. split; [vm_compute; reflexivity |].
  split; [| split; vm_compute; reflexivity].
  refine (proj1 (reorder_changes_positions_only sampleComponents _ "sample-text-2" 2 1 _)).
  vm_compute. reflexivity.
Defined.

(** X8.  A drop on a cell that no other block covers moves the dragged block to
    that row and to column [min(gridX, 12 - width)], which keeps it inside
    the grid; no other block is touched. *)
Theorem drop_on_free_cell (comps : list Component) (componentId : string)
    (colFloor rowFloor : Z) (d : Component) :
  let gridX := x (calculateGridPosition colFloor rowFloor) in
  let gridY := y (calculateGridPosition colFloor rowFloor) in
  find (isDragged componentId) comps = Some d ->
  find (isTarget componentId gridX gridY) comps = None ->
  1 <= width d <= 12 ->
  let landing := {| x := Z.min gridX (12 - width d); y := gridY |} in
  handleComponentReorder comps componentId colFloor rowFloor
    = Some (moveTo componentId landing <$> comps)
  /\ 0 <= x landing /\ x landing + width d <= 12 /\ 0 <= y landing
  /\ (forall c, id c <> componentId -> moveTo componentId landing c = c).
Proof.
  intros gridX gridY Hfd Hft Hw landing.
  assert (Hgx : 0 <= gridX <= 11).
  { subst gridX. unfold calculateGridPosition, GRID_COLUMNS. simpl. lia. }
  assert (Hgy : 0 <= gridY).
  { subst gridY. unfold calculateGridPosition. simpl. lia. }
  split.
  - unfold handleComponentReorder. fold gridX gridY. rewrite Hfd, Hft.
    f_equal. f_equal. subst landing. unfold GRID_COLUMNS.
    clearbody gridX gridY.
    case_decide;
      [replace (Z.max 0 (12 - width d)) with (Z.min gridX (12 - width d)) by lia
      | replace (Z.min gridX (12 - width d)) with gridX by lia]; reflexivity.
  - subst landing. clearbody gridX gridY. simpl. repeat split; try lia.
    intros c Hc. unfold moveTo. case_decide; [contradiction | reflexivity].
Qed.

Lemma drop_on_free_cell_witness :
  exists updated,
    handleComponentReorder sampleComponents "sample-text-2" 9 4 = Some updated
    /\ position <$> updated
       = [{| x := 0; y := 0 |}; {| x := 0; y := 1 |}; {| x := 6; y := 4 |}].
Proof.
  eexists. split.
  - refine (proj1 (drop_on_free_cell sampleComponents "sample-text-2" 9 4 _ _ _ _)).
    + vm_compute. reflexivity.
    + vm_compute. reflexivity.
    + vm_compute. split; discriminate.
  - vm_compute. reflexivity.
Defined.

(** ** Resize: what a whole drag does *)

Lemma withWidthAndX_same (c : Component) :
  withWidthAndX c (width c) (x (position c)) = c.
Proof. destruct c as [i ty co w [px py] al]. reflexivity. Qed.

Lemma resizeDrag_snoc (component : Component) (direction : Direction) (startX : Z)
    (moves : list Z) (clientX : Z) :
  resizeDrag component direction startX (moves ++ [clientX])
  = handleMouseUp component
      (fst (handleMouseMove component direction startX clientX
              (fold_left (fun st m => fst (handleMouseMove component direction startX m st))
                         moves (handleResizeStart component)))).
Proof. unfold resizeDrag. now rewrite fold_left_app. Qed.

(** A mouse-move either sets the live values to its own candidate, whatever
    they were, or leaves them as they are. *)
Lemma handleMouseMove_cases (component : Component) (direction : Direction)
    (startX clientX : Z) :
  (exists st', forall st,
      fst (handleMouseMove component direction startX clientX st) = st')
  \/ (forall st, fst (handleMouseMove component direction startX clientX st) = st).
Proof.
  unfold handleMouseMove. case_decide; [left; eexists; intros; reflexivity | right; auto].
Qed.

(** X10.  The moves of a drag do not add up: the last move either decides the
    result by itself or is ignored. *)
Theorem resize_last_move_decides_or_is_ignored (component : Component)
    (direction : Direction) (startX : Z) (moves : list Z) (clientX : Z) :
  resizeDrag component direction startX (moves ++ [clientX])
    = resizeDrag component direction startX [clientX]
  \/ resizeDrag component direction startX (moves ++ [clientX])
     = resizeDrag component direction startX moves.
Proof.
  rewrite resizeDrag_snoc.
  destruct (handleMouseMove_cases component direction startX clientX) as [[st' Hacc] | Hrej].
  - left. unfold resizeDrag. simpl. now rewrite !Hacc.
  - right. unfold resizeDrag. now rewrite Hrej.
Qed.

(** X11.  Across a whole drag the right handle never moves the block's column,
    the left handle never moves its right edge, and nothing but the width
    and the column changes. *)
Theorem resize_drag_keeps_anchor (component : Component) (direction : Direction)
    (startX : Z) (moves : list Z) :
  let resized := resizeDrag component direction startX moves in
  id resized = id component
  /\ type resized = type component
  /\ content resized = content component
  /\ alt resized = alt component
  /\ y (position resized) = y (position component)
  /\ match direction with
     | right => x (position resized) = x (position component)
     | left => x (position resized) + width resized
               = x (position component) + width component
     end.
Proof.
  intros resized. subst resized. unfold resizeDrag, handleMouseUp. simpl.
  repeat (split; [reflexivity |]).
  assert (Hinv : forall st,
    match direction with
    | right => finalPosition st = x (position component)
    | left => finalPosition st + finalWidth st = x (position component) + width component
    end ->
    let st' := fold_left (fun st m => fst (handleMouseMove component direction startX m st))
                         moves st in
    match direction with
    | right => finalPosition st' = x (position component)
    | left => finalPosition st' + finalWidth st' = x (position component) + width component
    end).
  { induction moves as [| m moves IH]; intros st Hst; simpl; [exact Hst |].
    apply IH. unfold handleMouseMove. case_decide; simpl; [| exact Hst].
    destruct direction; lia. }
  apply Hinv. destruct direction; reflexivity.
Qed.

(** X12.  A drag on a block that lies inside the grid at a column [>= 0] ends
    with such a block, wherever the pointer went. *)
Theorem resize_drag_stays_in_grid (component : Component) (direction : Direction)
    (startX : Z) (moves : list Z) :
  inGrid component -> 0 <= x (position component) ->
  inGrid (resizeDrag component direction startX moves)
  /\ 0 <= x (position (resizeDrag component direction startX moves)).
Proof.
  intros Hin Hx. split; [now apply resizeDrag_inGrid |].
  unfold resizeDrag, handleMouseUp. simpl.
  assert (Hstart : 0 <= finalPosition (handleResizeStart component)) by exact Hx.
  revert Hstart. generalize (handleResizeStart component).
  induction moves as [| m moves IH]; intros st Hst; simpl; [exact Hst |].
  apply IH. unfold handleMouseMove. case_decide; simpl; [lia | exact Hst].
Qed.

Lemma resize_drag_stays_in_grid_witness :
  let c := {| id := "A"; type := text; content := ""; width := 6;
              position := {| x := 3; y := 0 |}; alt := None |} in
  inGrid (resizeDrag c right 0 [250; 2000; -5000])
  /\ 0 <= x (position (resizeDrag c right 0 [250; 2000; -5000])).
Proof.
  intros c. apply (resize_drag_stays_in_grid c right 0 [250; 2000; -5000]).
  - unfold inGrid. simpl. lia.
  - simpl. lia.
Defined.

Lemma Math_round_div_small (n : Z) : -50 <= n < 50 -> Math_round_div n 100 = 0.
Proof.
  intros Hn. unfold Math_round_div. apply Z.div_small. lia.
Qed.

(** X13.  A drag that never takes the pointer half a column (50 pixels) away from
    where it started gives the block back unchanged. *)
Theorem resize_within_half_column_is_identity (component : Component)
    (direction : Direction) (startX : Z) (moves : list Z) :
  1 <= width component <= 12 ->
  Forall (fun clientX => -50 <= clientX - startX < 50) moves ->
  resizeDrag component direction startX moves = component.
Proof.
  intros Hw Hmoves. unfold resizeDrag, handleMouseUp.
  assert (Hfold : fold_left (fun st m => fst (handleMouseMove component direction startX m st))
                    moves (handleResizeStart component) = handleResizeStart component).
  { induction Hmoves as [| m moves Hm Hmoves IH]; simpl; [reflexivity |].
    replace (fst (handleMouseMove component direction startX m (handleResizeStart component)))
      with (handleResizeStart component); [exact IH |].
    unfold handleMouseMove. rewrite (Math_round_div_small _ Hm).
    case_decide; simpl; [| reflexivity].
    unfold handleResizeStart. destruct direction; f_equal; lia. }
  rewrite Hfold. apply withWidthAndX_same.
Qed.

Lemma resize_within_half_column_is_identity_witness :
  let c := {| id := "A"; type := text; content := ""; width := 6;
              position := {| x := 3; y := 0 |}; alt := None |} in
  resizeDrag c left 400 [420; 449; 351; 400] = c.
Proof.
  intros c. apply (resize_within_half_column_is_identity c left 400).
  - simpl. lia.
  - repeat constructor; lia.
Defined.

(** ** The render's sort, continued *)

Lemma rowMajor_spec (a b : Component) :
  rowMajor a b <->
  y (position a) < y (position b)
  \/ (y (position a) = y (position b) /\ x (position a) <= x (position b)).
Proof. unfold rowMajor, compareFn. case_decide; lia. Qed.

Lemma rowMajor_trans (a b c : Component) : rowMajor a b -> rowMajor b c -> rowMajor a c.
Proof. rewrite !rowMajor_spec. lia. Qed.

Lemma insertSorted_Permutation (c : Component) (l : list Component) :
  insertSorted c l ≡ₚ c :: l.
Proof.
  induction l as [| h rest IH]; simpl; [reflexivity |].
  case_decide; [reflexivity |].
  rewrite IH. apply Permutation_swap.
Qed.

Lemma Array_sort_Permutation (l : list Component) : Array_sort l ≡ₚ l.
Proof.
  induction l as [| c rest IH]; simpl; [reflexivity |].
  rewrite insertSorted_Permutation. now rewrite IH.
Qed.

Lemma insertSorted_filter_position (p : Position) (c : Component) (l : list Component) :
  filter (fun c' => position c' = p) (insertSorted c l)
  = filter (fun c' => position c' = p) (c :: l).
Proof.
  induction l as [| h rest IH]; simpl; [reflexivity |].
  case_decide as Hle; [reflexivity |].
  rewrite filter_cons, IH, !filter_cons.
  destruct (decide (position h = p)) as [Hh | Hh]; [| reflexivity].
  destruct (decide (position c = p)) as [Hc | Hc]; [| reflexivity].
  exfalso. apply Hle. unfold compareFn. rewrite Hh, Hc.
  case_decide; lia.
Qed.

(** X14.  The sort of the render body keeps every block, puts the blocks in row
    order and, within a row, in column order, and leaves blocks that sit on
    the same cell in the order they had. *)
Theorem render_sort_is_stable_row_major (l : list Component) :
  Array_sort l ≡ₚ l
  /\ Sorted rowMajor (Array_sort l)
  /\ (forall a b, rowMajor a b <->
        y (position a) < y (position b)
        \/ (y (position a) = y (position b) /\ x (position a) <= x (position b)))
  /\ (forall p, filter (fun c => position c = p) (Array_sort l)
                = filter (fun c => position c = p) l).
Proof.
  split; [apply Array_sort_Permutation |].
  split; [apply Array_sort_Sorted |].
  split; [apply rowMajor_spec |].
  intros p. induction l as [| c rest IH]; [reflexivity |].
  unfold Array_sort in *. simpl.
  now rewrite insertSorted_filter_position, !filter_cons, IH.
Qed.

(** ** Placement, continued *)

Lemma createComponent_after_last (ty : ComponentKind) (timestamp : Z)
    (front : list Component) (last : Component) :
  let created := createComponent ty timestamp (front ++ [last]) in
  width created = 6
  /\ inGrid created
  /\ position created = positionAfter last
  /\ ~ overlaps last created.
Proof.
  intros created.
  assert (Hpos : position created = positionAfter last).
  { subst created. unfold createComponent.
    destruct ty; simpl; apply calculateNextPosition_snoc. }
  split; [subst created; destruct ty; reflexivity |].
  split; [apply createComponent_inGrid |].
  split; [exact Hpos |].
  intros [Hy (col & Hlast & Hnew)]. unfold covers in *.
  rewrite Hpos in Hy, Hnew. unfold positionAfter in Hy, Hnew.
  case_decide; simpl in *; lia.
Qed.

(** X15.  A new block is 6 columns wide, lies inside the grid, and never
    overlaps the block it is placed after. *)
Theorem new_block_fits_after_last (ty : ComponentKind) (timestamp : Z)
    (front : list Component) (last : Component) :
  let created := createComponent ty timestamp (front ++ [last]) in
  width created = 6
  /\ inGrid created
  /\ position created = positionAfter last
  /\ ~ overlaps last created.
Proof. apply createComponent_after_last. Qed.

(** ** What every session state satisfies *)

Lemma addToHistory_Forall {A} (P : A -> Prop) (snapshot : A) (s : HistoryState A) :
  Forall P (history s) -> P snapshot -> Forall P (history (addToHistory snapshot s)).
Proof.
  intros Hh Hs. unfold addToHistory.
  assert (Hkept : Forall P (slice0 (history s) (historyIndex s + 1) ++ [snapshot])).
  { apply Forall_app. split; [| now repeat constructor].
    unfold slice0. case_decide; now apply Forall_take. }
  case_decide; simpl; [| exact Hkept].
  destruct (slice0 _ _ ++ _); [constructor |]. now inversion Hkept.
Qed.

Lemma index_elem_of {A} (l : list A) (i : Z) (a : A) : index l i = Some a -> a ∈ l.
Proof.
  unfold index. case_decide; [| discriminate]. apply list_elem_of_lookup_2.
Qed.

Lemma commitArray_uiInvariant (arr : list Component) (a : App) :
  uiInvariant a -> uiInvariant (commitArray arr a).
Proof.
  intros (Hr & Hlen & Hrefs & _ & _).
  assert (Hr' : cursorInRange (setComponents (length (store a)) (ui a))) by exact Hr.
  destruct (addToHistory_at_cursor _ (length (store a)) Hr') as [Hend Hat].
  unfold uiInvariant, commitArray. simpl. rewrite length_app. simpl.
  split; [now apply addToHistory_cursorInRange |].
  split; [now apply addToHistory_length_le |].
  split.
  { apply addToHistory_Forall; [| lia].
    simpl. eapply Forall_impl; [exact Hrefs |]. simpl. intros; lia. }
  split.
  { exists (length (store a)). rewrite addToHistory_components. simpl. split; [reflexivity | lia]. }
  right. rewrite addToHistory_components, Hat. simpl. split; [| reflexivity].
  unfold index in Hat. case_decide; [assumption | discriminate].
Qed.

Lemma undo_uiInvariant (a : App) :
  uiInvariant a -> uiInvariant {| store := store a; ui := undo (ui a) |}.
Proof.
  intros (Hr & Hlen & Hrefs & Hcomp & Hshown).
  unfold uiInvariant. simpl. rewrite undo_history.
  split; [now apply undo_cursorInRange |].
  split; [exact Hlen |]. split; [exact Hrefs |].
  unfold undo. case_decide as Hgt; simpl; [| auto].
  destruct Hr as [Hlo Hhi].
  destruct (index_Some (history (ui a)) (historyIndex (ui a) - 1)) as [r Hi]; [lia |].
  split.
  - exists r. split; [exact Hi |].
    rewrite Forall_forall in Hrefs. apply Hrefs. eapply index_elem_of, Hi.
  - right. split; [lia | reflexivity].
Qed.

Lemma redo_uiInvariant (a : App) :
  uiInvariant a -> uiInvariant {| store := store a; ui := redo (ui a) |}.
Proof.
  intros (Hr & Hlen & Hrefs & Hcomp & Hshown).
  unfold uiInvariant. simpl. rewrite redo_history.
  split; [now apply redo_cursorInRange |].
  split; [exact Hlen |]. split; [exact Hrefs |].
  unfold redo. case_decide as Hlt; simpl; [| auto].
  destruct Hr as [Hlo Hhi].
  destruct (index_Some (history (ui a)) (historyIndex (ui a) + 1)) as [r Hi]; [lia |].
  split.
  - exists r. split; [exact Hi |].
    rewrite Forall_forall in Hrefs. apply Hrefs. eapply index_elem_of, Hi.
  - right. split; [lia | reflexivity].
Qed.

Lemma handle_uiInvariant (a : App) (e : Event) : uiInvariant a -> uiInvariant (handle a e).
Proof.
  intros Ha. destruct e; simpl.
  - unfold addComponent. destruct (current a); [now apply commitArray_uiInvariant | exact Ha].
  - unfold handleDrop. destruct (current a); [| exact Ha].
    destruct handleComponentReorder; [| exact Ha].
    now apply commitArray_uiInvariant.
  - unfold handleResize. destruct (current a) as [comps |] eqn:Hcur; [| exact Ha].
    destruct (comps !! n); [| exact Ha].
    unfold updateComponent. rewrite Hcur. now apply commitArray_uiInvariant.
  - unfold deleteComponent. destruct (current a); [now apply commitArray_uiInvariant | exact Ha].
  - now apply undo_uiInvariant.
  - now apply redo_uiInvariant.
Qed.

Lemma handleAction_uiInvariant (a : App) (act : Action) :
  uiInvariant a -> uiInvariant (handleAction a act).
Proof.
  intros Ha. destruct act; simpl.
  - now apply handle_uiInvariant.
  - unfold handleContentChange. destruct (current a) as [comps |] eqn:Hcur; [| exact Ha].
    destruct (comps !! n); [| exact Ha].
    unfold updateComponent. rewrite Hcur. now apply commitArray_uiInvariant.
  - unfold uiInvariant, addSampleData, cursorInRange. simpl. rewrite length_app. simpl.
    split; [lia |]. split; [lia |]. split; [repeat constructor; lia |].
    split; [eexists; split; [reflexivity | lia] |].
    right. split; [lia | reflexivity].
  - unfold uiInvariant, clearComponents, cursorInRange. simpl. rewrite length_app. simpl.
    split; [lia |]. split; [lia |]. split; [constructor |].
    split; [eexists; split; [reflexivity | lia] |].
    left. auto.
Qed.

Lemma render_uiInvariant (a : App) : uiInvariant a -> uiInvariant (render a).
Proof.
  intros Ha. unfold render.
  destruct (components (ui a)) as [r |]; [| exact Ha].
  destruct (store a !! r); [| exact Ha].
  unfold uiInvariant in *. simpl. rewrite length_insert. exact Ha.
Qed.

Lemma handleAction_store (a : App) (act : Action) :
  store (handleAction a act) = store a
  \/ exists arr, store (handleAction a act) = store a ++ [arr]
                 /\ components (ui (handleAction a act)) = Some (length (store a)).
Proof.
  destruct act; simpl.
  - apply handle_store.
  - unfold handleContentChange. destruct (current a) as [comps |] eqn:Hcur; auto.
    destruct (comps !! n); auto.
    unfold updateComponent. rewrite Hcur. right. eexists. split; [reflexivity |].
    apply commitArray_components.
  - right. eexists. split; reflexivity.
  - right. eexists. split; reflexivity.
Qed.

Lemma stepAction_storeSorted (a : App) (act : Action) :
  storeSorted a -> storeSorted (stepAction a act).
Proof.
  intros Hs. unfold stepAction.
  destruct (handleAction_store a act) as [Hsame | (arr & Hnew & Hcur)].
  - rewrite render_sorted; unfold storeSorted; now rewrite Hsame.
  - destruct (handleAction a act) as [sto u]. simpl in *. subst sto.
    rewrite render_allocated by exact Hcur.
    unfold storeSorted. simpl. apply Forall_app. split; [exact Hs |].
    repeat constructor. apply Array_sort_idem.
Qed.

Lemma stepAction_appInvariant (a : App) (act : Action) :
  appInvariant a -> appInvariant (stepAction a act).
Proof.
  intros [Hu Hs]. split.
  - apply render_uiInvariant, handleAction_uiInvariant, Hu.
  - now apply stepAction_storeSorted.
Qed.

Lemma initialApp_appInvariant : appInvariant initialApp.
Proof.
  split; [| apply initialApp_storeSorted].
  unfold uiInvariant, initialApp, cursorInRange. simpl.
  split; [lia |]. split; [lia |]. split; [constructor |].
  split; [eexists; split; [reflexivity | lia] | left; auto].
Qed.

Lemma runActions_appInvariant (acts : list Action) (a : App) :
  appInvariant a -> appInvariant (runActions acts a).
Proof.
  revert a. induction acts as [| act acts IH]; intros a Ha; simpl; [exact Ha |].
  apply IH, stepAction_appInvariant, Ha.
Qed.

Lemma runActions_UserEvent (events : list Event) (a : App) :
  runActions (UserEvent <$> events) a = run events a.
Proof.
  revert a. induction events as [| e events IH]; intros a; simpl; [reflexivity |].
  apply IH.
Qed.

Lemma appInvariant_current (a : App) :
  appInvariant a -> exists comps, current a = Some comps /\ Sorted rowMajor comps.
Proof.
  intros [(_ & _ & _ & (r & Hc & Hr) & _) Hs].
  destruct (lookup_lt_is_Some_2 (store a) r Hr) as [comps Hcomps].
  exists comps. split.
  - unfold current. rewrite Hc. exact Hcomps.
  - unfold storeSorted in Hs. rewrite <- (Forall_lookup_1 _ _ _ _ Hs Hcomps).
    apply Array_sort_Sorted.
Qed.

(** X16.  In every session the [components] cell holds an array (the handlers
    never meet [undefined]), and after each render that array is in row
    order, then column order. *)
Theorem session_layout_defined_and_sorted (acts : list Action) :
  exists comps,
    current (runActions acts initialApp) = Some comps /\ Sorted rowMajor comps.
Proof. apply appInvariant_current, runActions_appInvariant, initialApp_appInvariant. Qed.



(** ** Adding a block to a rendered layout *)

Lemma noOverlap_snoc (l : list Component) (n : Component) :
  noOverlap l -> Forall (fun c => ~ overlaps c n) l -> noOverlap (l ++ [n]).
Proof.
  intros Hl Hn i j a b Hij Ha Hb Hov.
  rewrite Forall_lookup in Hn.
  destruct (decide (i < length l)%nat) as [Hi | Hi];
    destruct (decide (j < length l)%nat) as [Hj | Hj].
  - rewrite lookup_app_l in Ha, Hb by assumption. exact (Hl i j a b Hij Ha Hb Hov).
  - rewrite lookup_app_l in Ha by assumption.
    rewrite lookup_app_r in Hb by lia.
    destruct (j - length l)%nat; [| discriminate]. injection Hb as <-.
    exact (Hn i a Ha Hov).
  - rewrite lookup_app_l in Hb by assumption.
    rewrite lookup_app_r in Ha by lia.
    destruct (i - length l)%nat; [| discriminate]. injection Ha as <-.
    exact (Hn j b Hb (overlaps_sym _ _ Hov)).
  - rewrite lookup_app_r in Ha, Hb by lia.
    destruct (i - length l)%nat eqn:Ei; [| discriminate].
    destruct (j - length l)%nat eqn:Ej; [| discriminate]. lia.
Qed.

Lemma noOverlap_cons_inv (c : Component) (rest : list Component) :
  noOverlap (c :: rest) -> Forall (fun d => ~ overlaps c d) rest /\ noOverlap rest.
Proof.
  intros Hno. split.
  - apply Forall_lookup. intros i d Hd. apply (Hno 0%nat (S i) c d); auto.
  - intros i j a b Hij Ha Hb. apply (Hno (S i) (S j) a b); auto.
Qed.

Lemma noOverlap_insertSorted (c : Component) (l : list Component) :
  noOverlap (c :: l) -> noOverlap (insertSorted c l).
Proof.
  induction l as [| h rest IH]; intros Hno; simpl; [exact Hno |].
  case_decide; [exact Hno |].
  apply noOverlap_cons_inv in Hno as [Hc Hhrest].
  apply noOverlap_cons_inv in Hhrest as [Hh Hrest].
  inversion Hc as [| ? ? Hch Hcrest]; subst.
  apply noOverlap_cons.
  - apply Forall_insertSorted; [| exact Hh].
    intros Hov. apply Hch. now apply overlaps_sym.
  - apply IH. now apply noOverlap_cons.
Qed.

Lemma noOverlap_Array_sort (l : list Component) : noOverlap l -> noOverlap (Array_sort l).
Proof.
  induction l as [| c rest IH]; intros Hno; [exact Hno |].
  apply noOverlap_cons_inv in Hno as [Hc Hrest].
  unfold Array_sort in *. simpl. apply noOverlap_insertSorted, noOverlap_cons.
  - now apply Forall_Array_sort.
  - now apply IH.
Qed.

Lemma Sorted_snoc_all_before (front : list Component) (last : Component) :
  Sorted rowMajor (front ++ [last]) -> Forall (fun c => rowMajor c last) front.
Proof.
  intros Hs. apply Sorted_StronglySorted in Hs.
  - induction front as [| c front IH]; [constructor |].
    simpl in Hs. apply StronglySorted_inv in Hs as [Hrest Hc].
    constructor; [| now apply IH].
    rewrite Forall_forall in Hc. apply Hc.
    apply elem_of_app. right. now left.
  - intros a b c. apply rowMajor_trans.
Qed.

(** In an array that is in row-column order, has no overlap and only blocks
    of positive width, the place computed for a new block is free: adding
    the block creates no overlap. *)
Lemma add_to_sorted_layout_no_overlap (comps : list Component)
    (ty : ComponentKind) (timestamp : Z) :
  Sorted rowMajor comps ->
  noOverlap comps ->
  Forall (fun c => 0 < width c) comps ->
  noOverlap (comps ++ [createComponent ty timestamp comps]).
Proof.
  intros Hs Hno Hw.
  destruct comps as [| c0 rest] using rev_ind.
  { intros i j a b Hij Ha Hb.
    destruct i, j; simpl in *; try discriminate. congruence. }
  clear IHrest. rename c0 into last, rest into front.
  apply noOverlap_snoc; [exact Hno |].
  destruct (createComponent_after_last ty timestamp front last) as (_ & _ & Hpos & Hlast).
  pose proof (Sorted_snoc_all_before front last Hs) as Hbefore.
  apply Forall_app in Hw as [Hwfront Hwlast].
  inversion Hwlast as [| ? ? Hwl _]; subst.
  apply Forall_app. split; [| now repeat constructor].
  apply Forall_lookup. intros i c Hc.
  pose proof (Forall_lookup_1 _ _ _ _ Hbefore Hc) as Hcl.
  pose proof (Forall_lookup_1 _ _ _ _ Hwfront Hc) as Hwc.
  apply rowMajor_spec in Hcl.
  assert (Hapart : ~ overlaps c last).
  { apply (Hno i (length front) c last).
    - apply lookup_lt_Some in Hc. lia.
    - now apply lookup_app_l_Some.
    - now apply list_lookup_middle. }
  intros [Hy (col & Hcc & Hcn)]. unfold covers in *.
  rewrite Hpos in Hy, Hcn. unfold positionAfter in Hy, Hcn.
  case_decide; simpl in *; [| lia].
  apply Hapart. split; [lia |]. exists (x (position last)). unfold covers. lia.
Qed.

(** X18.  In a running session, adding a block to a layout that has no overlap
    and only blocks of positive width gives a layout without overlap: the
    render keeps the array in row-column order, so the place after its last
    element is free. *)
Theorem session_add_block_keeps_overlap_free (acts : list Action)
    (ty : ComponentKind) (timestamp : Z) (comps : list Component) :
  let a := runActions acts initialApp in
  current a = Some comps ->
  noOverlap comps ->
  Forall (fun c => 0 < width c) comps ->
  exists comps',
    current (stepAction a (UserEvent (AddBlock ty timestamp))) = Some comps'
    /\ comps' ≡ₚ comps ++ [createComponent ty timestamp comps]
    /\ noOverlap comps'.
Proof.
  intros a Hcur Hno Hw.
  pose proof (runActions_appInvariant acts initialApp initialApp_appInvariant) as Hinv.
  fold a in Hinv.
  destruct (appInvariant_current a Hinv) as (comps0 & Hcur0 & Hsorted).
  replace comps0 with comps in * by congruence.
  exists (Array_sort (comps ++ [createComponent ty timestamp comps])).
  split; [| split].
  - unfold stepAction. simpl. unfold addComponent. rewrite Hcur.
    unfold commitArray.
    rewrite render_allocated by apply addToHistory_components.
    unfold current. simpl. rewrite addToHistory_components. simpl.
    apply list_lookup_middle. reflexivity.
  - apply Array_sort_Permutation.
  - apply noOverlap_Array_sort. now apply add_to_sorted_layout_no_overlap.
Qed.

Lemma session_add_block_keeps_overlap_free_witness :
  let a := runActions [LoadSample; UserEvent (Reorder "sample-text-2" 2 1)] initialApp in
  exists comps',
    current (stepAction a (UserEvent (AddBlock image 7))) = Some comps'
    /\ noOverlap comps'
    /\ (fun c => (id c, x (position c), y (position c))) <$> comps'
       = [("sample-text-1", 0, 0); ("sample-text-2", 0, 1); ("sample-image-1", 6, 1);
          ("image-7", 0, 2)].
Proof.
  intros a.
  destruct (session_add_block_keeps_overlap_free
              [LoadSample; UserEvent (Reorder "sample-text-2" 2 1)] image 7
              (default [] (current a))) as (comps' & Hcur & _ & Hno).
  - vm_compute. reflexivity.
  - apply noOverlapb_sound. vm_compute. reflexivity.
  - repeat constructor.
  - exists comps'. split; [exact Hcur |]. split; [exact Hno |].
    fold a in Hcur. vm_compute in Hcur. injection Hcur as <-. vm_compute. reflexivity.
Defined.

(** ** Clearing, deleting, editing *)

(** X19.  Clearing cannot be undone: it leaves an empty layout, an empty history
    and the cursor at -1, and after it neither undo nor redo changes
    anything. *)
Theorem clear_cannot_be_undone (a : App) :
  let cleared := stepAction a ClearAll in
  current cleared = Some []
  /\ history (ui cleared) = []
  /\ historyIndex (ui cleared) = -1
  /\ stepAction cleared (UserEvent UndoKey) = cleared
  /\ stepAction cleared (UserEvent RedoKey) = cleared.
Proof.
  intros cleared.
  assert (Hc : cleared = {| store := store a ++ [[]];
                            ui := {| components := Some (length (store a));
                                     history := []; historyIndex := -1 |} |}).
  { subst cleared. unfold stepAction. simpl. unfold clearComponents.
    now rewrite render_allocated. }
  assert (Hrender : render cleared = cleared).
  { rewrite Hc. now rewrite render_allocated. }
  split; [rewrite Hc; unfold current; simpl; now apply list_lookup_middle |].
  split; [now rewrite Hc |]. split; [now rewrite Hc |].
  unfold stepAction. simpl.
  replace (undo (ui cleared)) with (ui cleared) by now rewrite Hc.
  replace (redo (ui cleared)) with (ui cleared) by now rewrite Hc.
  replace {| store := store cleared; ui := ui cleared |} with cleared by now destruct cleared.
  auto.
Qed.

(** X20.  Deleting an id that no block has still commits: unlike a reorder with
    an unknown id, it allocates a copy of the current array, makes it the
    current one and stores it as a new snapshot under the cursor. *)
Theorem delete_unknown_id_still_commits (a : App) (comps : list Component) (i : string) :
  current a = Some comps ->
  (forall c, c ∈ comps -> id c <> i) ->
  cursorInRange (ui a) ->
  let a' := handle a (DeleteBlock i) in
  store a' = store a ++ [comps]
  /\ components (ui a') = Some (length (store a))
  /\ current a' = Some comps
  /\ index (history (ui a')) (historyIndex (ui a')) = Some (length (store a))
  /\ a' <> a.
Proof.
  intros Hcur Hnone Hr a'.
  assert (Hfilter : filter (fun c => id c <> i) comps = comps).
  { clear Hcur. induction comps as [| c rest IH]; [reflexivity |].
    rewrite filter_cons_True by (apply Hnone; now left).
    f_equal. apply IH. intros c' Hc'. apply Hnone. now right. }
  assert (Ha' : a' = commitArray comps a).
  { subst a'. simpl. unfold deleteComponent. now rewrite Hcur, Hfilter. }
  rewrite Ha'. split; [reflexivity |].
  split; [apply commitArray_components |].
  split.
  { unfold current. rewrite commitArray_components. simpl. now apply list_lookup_middle. }
  split.
  { unfold commitArray. simpl.
    apply (addToHistory_at_cursor (setComponents (length (store a)) (ui a))). exact Hr. }
  intros Heq. apply (f_equal (fun s => length (store s))) in Heq.
  unfold commitArray in Heq. simpl in Heq. rewrite length_app in Heq. simpl in Heq. lia.
Qed.

Lemma delete_unknown_id_still_commits_witness :
  let a := run [AddBlock text 1; AddBlock image 2] initialApp in
  current (handle a (DeleteBlock "text-9")) = current a
  /\ history (ui (handle a (DeleteBlock "text-9"))) = [1; 2; 3]%nat
  /\ handle a (DeleteBlock "text-9") <> a.
Proof.
  intros a.
  destruct (delete_unknown_id_still_commits a (default [] (current a)) "text-9")
    as (_ & _ & Hcur & _ & Hne).
  - vm_compute. reflexivity.
  - intros c Hc. vm_compute in Hc.
    apply elem_of_cons in Hc as [-> | Hc]; [vm_compute; discriminate |].
    apply elem_of_cons in Hc as [-> | Hc]; [vm_compute; discriminate |].
    apply elem_of_nil in Hc. destruct Hc.
  - vm_compute. split; [discriminate | reflexivity].
  - split; [rewrite Hcur; vm_compute; reflexivity |].
    split; [vm_compute; reflexivity | exact Hne].
Defined.

(** X21.  With unique ids, a content edit replaces the edited block by a copy
    with the new content and leaves every position, width and other block
    as it is. *)
Theorem content_edit_replaces_one_block (a : App) (comps : list Component)
    (n : nat) (c : Component) (newContent : string) :
  current a = Some comps ->
  NoDup (id <$> comps) ->
  comps !! n = Some c ->
  handleContentChange n newContent a
    = commitArray (<[n := withContent c newContent]> comps) a
  /\ position <$> <[n := withContent c newContent]> comps = position <$> comps
  /\ width <$> <[n := withContent c newContent]> comps = width <$> comps.
Proof.
  intros Hcur Hnd Hn.
  assert (Hlt : (n < length comps)%nat) by (eapply lookup_lt_Some; eauto).
  split; [| split].
  - unfold handleContentChange, updateComponent. rewrite Hcur, Hn. f_equal.
    apply list_eq. intros j. rewrite list_lookup_fmap.
    destruct (decide (j = n)) as [-> | Hjn].
    + rewrite Hn, list_lookup_insert_eq by exact Hlt. simpl.
      now rewrite decide_True by reflexivity.
    + rewrite list_lookup_insert_ne by auto.
      destruct (comps !! j) as [c' |] eqn:Hj; [| reflexivity]. simpl.
      rewrite decide_False; [reflexivity |].
      intros Hid. apply Hjn. eapply unique_id_lookup; eauto.
  - rewrite list_fmap_insert. apply list_insert_id.
    rewrite list_lookup_fmap, Hn. reflexivity.
  - rewrite list_fmap_insert. apply list_insert_id.
    rewrite list_lookup_fmap, Hn. reflexivity.
Qed.

Lemma content_edit_replaces_one_block_witness :
  let a := run [AddBlock text 1; AddBlock image 2] initialApp in
  option_map (fmap content) (current (handleContentChange 1 "https://example.org/a.png" a))
    = Some ["# New Text Component

Enter your markdown content here...

- **Bold text**
- *Italic text*
- `Code snippets`"; "https://example.org/a.png"].
Proof.
  intros a.
  destruct (content_edit_replaces_one_block a (default [] (current a)) 1
              (createComponent image 2 (default [] (current (run [AddBlock text 1] initialApp))))
              "https://example.org/a.png") as (Hedit & _ & _).
  - vm_compute. reflexivity.
  - apply (bool_decide_unpack _). vm_compute. exact I.
  - vm_compute. reflexivity.
  - rewrite Hedit. vm_compute. reflexivity.
Defined.

(** ** Grid rows *)

Lemma Math_max_spec (l : list Z) (m : Z) :
  Math_max l = Some m -> Forall (fun v => v <= m) l /\ m ∈ l.
Proof.
  revert m. induction l as [| v rest IH]; intros m Hm; [discriminate |].
  simpl in Hm. destruct (Math_max rest) as [m' |] eqn:Hrest.
  - injection Hm as <-. destruct (IH m' eq_refl) as [Hle Hin]. split.
    + constructor; [lia |]. eapply Forall_impl; [exact Hle |]. simpl. intros; lia.
    + destruct (Z.max_spec v m') as [[_ ->] | [_ ->]]; [now right | now left].
  - injection Hm as <-. destruct rest; [| discriminate].
    split; [repeat constructor; lia | now left].
Qed.

(** X22.  The grid is given enough rows for every block: the CSS row
    [position.y + 1] of a block on a row [>= 0] is at most the number of
    template rows; for a non-empty layout [gridRows] is one more than the
    row of some block, and for the empty layout it is 1. *)
Theorem grid_rows_cover_every_block (comps : list Component) :
  (forall c, c ∈ comps -> y (position c) + 1 <= gridRows comps)
  /\ (forall c, c ∈ comps -> y (position c) + 1 <= templateRows comps)
  /\ (comps <> [] -> exists c, c ∈ comps /\ gridRows comps = y (position c) + 1)
  /\ gridRows [] = 1
  /\ 1 <= templateRows comps.
Proof.
  assert (Hnonempty : comps <> [] ->
            exists m, Math_max ((fun c => y (position c)) <$> comps) = Some m
                      /\ gridRows comps = m + 1).
  { intros Hne. destruct comps as [| c rest]; [contradiction |].
    unfold gridRows, maxY. simpl.
    destruct (Math_max _); eexists; split; reflexivity. }
  assert (Hrows : forall c, c ∈ comps -> y (position c) + 1 <= gridRows comps).
  { intros c Hc.
    destruct Hnonempty as (m & Hm & ->); [intros ->; now apply elem_of_nil in Hc |].
    apply Math_max_spec in Hm as [Hle _].
    rewrite Forall_fmap, Forall_forall in Hle. specialize (Hle c Hc). simpl in Hle. lia. }
  split; [exact Hrows |].
  split; [intros c Hc; specialize (Hrows c Hc); unfold templateRows; lia |].
  split; [| split; [reflexivity | unfold templateRows; lia]].
  intros Hne. destruct (Hnonempty Hne) as (m & Hm & ->).
  apply Math_max_spec in Hm as [_ Hin].
  apply list_elem_of_fmap in Hin as (c & -> & Hc). eauto.
Qed.

Lemma grid_rows_cover_every_block_witness :
  gridRows sampleComponents = 2
  /\ exists c, c ∈ sampleComponents /\ gridRows sampleComponents = y (position c) + 1.
Proof.
  split; [reflexivity |].
  apply (proj1 (proj2 (proj2 (grid_rows_cover_every_block sampleComponents)))).
  discriminate.
Defined.

(** ** Keyboard shortcuts *)

(** X23.  A key press fires undo exactly for Ctrl/Cmd + z without Shift, redo
    exactly for Ctrl/Cmd + y or Ctrl/Cmd + Shift + z, and nothing else; the
    earlier page, which tests the three combinations one by one, reacts to
    every key press in the same way. *)
Theorem keyboard_shortcuts (e : KeyboardEvent) :
  (handleKeyDown e = Some UndoKey
     <-> (ctrlKey e = true \/ metaKey e = true) /\ key e = "z" /\ shiftKey e = false)
  /\ (handleKeyDown e = Some RedoKey
     <-> (ctrlKey e = true \/ metaKey e = true)
         /\ (key e = "y" \/ key e = "z" /\ shiftKey e = true))
  /\ (forall ev, handleKeyDown e = Some ev -> ev = UndoKey \/ ev = RedoKey)
  /\ handleKeyDown_canvas e = handleKeyDown e.
Proof.
  unfold handleKeyDown, handleKeyDown_canvas, KEY_Z, KEY_Y.
  destruct e as [c m s k]. simpl.
  destruct (decide (k = "z")) as [-> | Hz].
  - destruct c, m, s; simpl; repeat split; intros; try discriminate; try tauto;
      try (intuition congruence);
      try (match goal with H : Some _ = Some _ |- _ => injection H as <- end; auto).
  - destruct (decide (k = "y")) as [-> | Hy].
    + destruct c, m, s; simpl; repeat split; intros; try discriminate; try tauto;
        try (intuition congruence);
        try (match goal with H : Some _ = Some _ |- _ => injection H as <- end; auto).
    + rewrite !(bool_decide_eq_false_2 _ Hz), !(bool_decide_eq_false_2 _ Hy).
      destruct c, m, s; simpl; repeat split; intros; try discriminate; try tauto;
        try (intuition congruence).
Qed.

(** ** Invariants restated for whole sessions *)

(** X6.  Every history reached from the empty one by commits, undos and redos
    keeps the cursor between -1 and the last slot. *)
Theorem history_cursor_stays_in_range {A} (ops : list (HistoryOp A)) (cur : option A) :
  let s := historyRun ops {| components := cur; history := []; historyIndex := -1 |} in
  -1 <= historyIndex s < Z.of_nat (length (history s)).
Proof. apply historyRun_cursorInRange. Qed.

Lemma sampleComponents_inGrid : Forall inGrid sampleComponents.
Proof. repeat constructor; vm_compute; discriminate. Qed.

(** X24.  Every action other than a drop on an occupied cell keeps all blocks
    inside the grid, in a layout with unique ids: adding, deleting,
    resizing, editing, undoing, redoing, loading the sample, clearing and
    dropping on a free cell. *)
Theorem actions_off_occupied_cells_keep_grid_bound (a : App) (act : Action) :
  storeInGrid a ->
  (forall comps, current a = Some comps -> NoDup (id <$> comps)) ->
  (forall e, act = UserEvent e -> ~ dropsOnBlock a e) ->
  storeInGrid (stepAction a act).
Proof.
  intros Ha Hnd Hfree. destruct act as [e | n newContent | |].
  - apply (step_keeps_grid_bound a e Ha Hnd). now apply Hfree.
  - unfold stepAction. apply render_storeInGrid. simpl.
    unfold handleContentChange.
    destruct (current a) as [comps |] eqn:Hcur; [| exact Ha].
    destruct (comps !! n) as [c |] eqn:Hn; [| exact Ha].
    unfold updateComponent. rewrite Hcur.
    pose proof (current_inGrid a comps Ha Hcur) as Hin.
    apply commitArray_storeInGrid; [exact Ha |].
    apply Forall_fmap, Forall_lookup. intros i c' Hc'. simpl.
    case_decide; [| exact (Forall_lookup_1 _ _ _ _ Hin Hc')].
    exact (Forall_lookup_1 _ _ _ _ Hin Hn).
  - unfold stepAction. apply render_storeInGrid. simpl.
    unfold storeInGrid, addSampleData. simpl.
    apply Forall_app. split; [exact Ha |].
    constructor; [apply sampleComponents_inGrid | constructor].
  - unfold stepAction. apply render_storeInGrid. simpl.
    unfold storeInGrid, clearComponents. simpl.
    apply Forall_app. split; [exact Ha | repeat constructor].
Qed.

Lemma actions_off_occupied_cells_keep_grid_bound_witness :
  let a := runActions [LoadSample] initialApp in
  storeInGrid (stepAction a (UserEvent (Resize 1 right 0 [900])))
  /\ storeInGrid (stepAction a (UserEvent (Reorder "sample-text-2" 9 4))).
Proof.
  intros a.
  assert (Ha : storeInGrid a).
  { repeat constructor; vm_compute; discriminate. }
  assert (Hnd : forall comps, current a = Some comps -> NoDup (id <$> comps)).
  { intros comps Hcur. vm_compute in Hcur. injection Hcur as <-.
    apply (bool_decide_unpack _). vm_compute. exact I. }
  split; apply (actions_off_occupied_cells_keep_grid_bound a _ Ha Hnd).
  - intros e He. injection He as <-. simpl. auto.
  - intros e He. injection He as <-. vm_compute. intros H. apply H. reflexivity.
Defined.

Example Array_sort_example :
  let blockAt i px py :=
    {| id := i; type := text; content := ""; width := 3;
       position := {| x := px; y := py |}; alt := None |} in
  id <$> Array_sort [blockAt "a" 6 1; blockAt "b" 0 1; blockAt "c" 6 1; blockAt "d" 9 0]
    = ["d"; "b"; "a"; "c"].
Proof. vm_compute. reflexivity. Qed.

(** ** Taking a swap back *)

Lemma find_only {A} (p : A -> bool) (l : list A) (a : A) :
  a ∈ l -> p a = true -> (forall c, c ∈ l -> p c = true -> c = a) -> find p l = Some a.
Proof.
  induction l as [| h rest IH]; intros Hin Hp Honly; [now apply elem_of_nil in Hin |].
  simpl. destruct (p h) eqn:Hph.
  - f_equal. apply Honly; [now left | exact Hph].
  - apply IH; [| exact Hp |].
    + apply elem_of_cons in Hin as [-> | Hin]; [congruence | exact Hin].
    + intros c Hc. apply Honly. now right.
Qed.

Lemma withPosition_back (c : Component) (p q : Position) :
  q = position c -> withPosition (withPosition c p) q = c.
Proof. intros ->. now destruct c. Qed.

Lemma swapPositions_id (componentId : string) (d t c : Component) :
  id (swapPositions componentId d t c) = id c.
Proof. unfold swapPositions. repeat case_decide; reflexivity. Qed.

Lemma unique_id_elem (l : list Component) (a b : Component) :
  NoDup (id <$> l) -> a ∈ l -> b ∈ l -> id a = id b -> a = b.
Proof.
  intros Hnd Ha Hb Hid.
  apply list_elem_of_lookup in Ha as [i Hi]. apply list_elem_of_lookup in Hb as [j Hj].
  assert (i = j) by (eapply unique_id_lookup; eauto). subst j. congruence.
Qed.

(** Blocks of positive width that do not overlap sit on different cells. *)
Lemma noOverlap_positions_NoDup (l : list Component) :
  noOverlap l -> Forall (fun c => 0 < width c) l -> NoDup (position <$> l).
Proof.
  intros Hno Hw. apply NoDup_alt. intros i j p Hi Hj.
  rewrite list_lookup_fmap in Hi, Hj.
  destruct (l !! i) as [a |] eqn:Ha; [| discriminate].
  destruct (l !! j) as [b |] eqn:Hb; [| discriminate].
  simpl in Hi, Hj. injection Hi as Hpa. injection Hj as Hpb.
  destruct (decide (i = j)) as [| Hij]; [assumption | exfalso].
  apply (Hno i j a b Hij Ha Hb).
  pose proof (Forall_lookup_1 _ _ _ _ Hw Ha) as Hwa.
  pose proof (Forall_lookup_1 _ _ _ _ Hw Hb) as Hwb.
  simpl in Hwa, Hwb.
  split; [congruence |]. exists (x p). unfold covers. rewrite Hpa, Hpb. lia.
Qed.

Lemma rowMajor_both (a b : Component) :
  compareFn a b <= 0 -> compareFn b a <= 0 -> position a = position b.
Proof.
  unfold compareFn. destruct (position a) as [xa ya], (position b) as [xb yb]. simpl.
  repeat case_decide; intros; f_equal; lia.
Qed.

(** An array in row-column order whose blocks sit on different cells is the
    only arrangement of its blocks in that order. *)
Lemma sorted_arrangement_unique (l1 l2 : list Component) :
  StronglySorted rowMajor l1 -> StronglySorted rowMajor l2 ->
  l1 ≡ₚ l2 -> NoDup (position <$> l1) -> l1 = l2.
Proof.
  revert l2. induction l1 as [| a l1 IH]; intros l2 Hs1 Hs2 Hperm Hnd.
  - apply Permutation_nil_l in Hperm. now subst.
  - destruct l2 as [| b l2]; [symmetry in Hperm; now apply Permutation_nil_cons in Hperm |].
    apply StronglySorted_inv in Hs1 as [Hs1 Ha].
    apply StronglySorted_inv in Hs2 as [Hs2 Hb].
    rewrite Forall_forall in Ha, Hb.
    rewrite fmap_cons in Hnd. apply NoDup_cons in Hnd as [Hfresh Hnd].
    assert (Hab : a = b).
    { assert (Hin : a ∈ b :: l2) by (rewrite <- Hperm; now left).
      apply elem_of_cons in Hin as [Heq | Hin]; [exact Heq |].
      assert (Hin' : b ∈ a :: l1) by (rewrite Hperm; now left).
      apply elem_of_cons in Hin' as [Heq | Hin']; [now symmetry |].
      exfalso. apply Hfresh.
      rewrite (rowMajor_both a b (Ha b Hin') (Hb a Hin)).
      now apply list_elem_of_fmap_2. }
    subst b. f_equal. apply IH; auto.
    now apply Permutation_cons_inv in Hperm.
Qed.

Lemma rowMajor_Transitive : Relations_1.Transitive rowMajor.
Proof. intros a b c. unfold rowMajor, compareFn. repeat case_decide; lia. Qed.

(** X9.  On screen, a swap can be taken back: in a rendered layout (row-column
    order) with unique ids, no overlap and blocks of positive width, after a
    drop that swapped the dragged block with a target and the render that
    follows, dropping the dragged block on the cell it came from swaps the
    two again, and the next render shows the original array. *)
Theorem swap_back_restores (comps : list Component) (componentId : string)
    (colFloor rowFloor : Z) (d t : Component) :
  Sorted rowMajor comps ->
  NoDup (id <$> comps) ->
  noOverlap comps ->
  Forall (fun c => 0 < width c) comps ->
  find (isDragged componentId) comps = Some d ->
  find (isTarget componentId (x (calculateGridPosition colFloor rowFloor))
                             (y (calculateGridPosition colFloor rowFloor))) comps = Some t ->
  0 <= x (position d) <= 11 -> 0 <= y (position d) ->
  exists updated back,
    handleComponentReorder comps componentId colFloor rowFloor = Some updated
    /\ handleComponentReorder (Array_sort updated) componentId
         (x (position d)) (y (position d)) = Some back
    /\ Array_sort back = comps.
Proof.
  intros Hsorted Hnd Hno Hw Hfd Hft Hxd Hyd.
  destruct (find_Some_lookup _ _ _ Hfd) as (di & Hd & Hpd).
  destruct (find_Some_lookup _ _ _ Hft) as (ti & Ht & Hpt).
  assert (Hidd : id d = componentId).
  { unfold isDragged in Hpd. now apply bool_decide_eq_true in Hpd. }
  assert (Hidt : id t <> componentId).
  { unfold isTarget in Hpt. rewrite !andb_true_iff in Hpt.
    destruct Hpt as [[[Hpt _] _] _]. now apply bool_decide_eq_true in Hpt. }
  assert (Hdin : d ∈ comps) by (eapply list_elem_of_lookup_2; eauto).
  assert (Htin : t ∈ comps) by (eapply list_elem_of_lookup_2; eauto).
  assert (Hwd : 0 < width d) by (exact (Forall_lookup_1 _ _ _ _ Hw Hd)).
  assert (Hwt : 0 < width t) by (exact (Forall_lookup_1 _ _ _ _ Hw Ht)).
  set (updated := swapPositions componentId d t <$> comps).
  set (shown := Array_sort updated).
  set (d' := withPosition d (position t)).
  set (t' := withPosition t (position d)).
  assert (Hshown : forall c', c' ∈ shown <->
            exists c, c ∈ comps /\ c' = swapPositions componentId d t c).
  { intros c'. unfold shown. rewrite (Array_sort_Permutation updated).
    unfold updated. rewrite list_elem_of_fmap. split; intros (c & H1 & H2); eauto. }
  assert (Hd' : swapPositions componentId d t d = d').
  { unfold swapPositions. now rewrite decide_True by exact Hidd. }
  assert (Ht' : swapPositions componentId d t t = t').
  { unfold swapPositions. rewrite decide_False by exact Hidt.
    now rewrite decide_True by reflexivity. }
  assert (Hgrid : calculateGridPosition (x (position d)) (y (position d)) = position d).
  { unfold calculateGridPosition, GRID_COLUMNS. destruct (position d) as [px py].
    simpl in *. f_equal; lia. }
  assert (Hfd' : find (isDragged componentId) shown = Some d').
  { apply find_only.
    - apply Hshown. exists d. auto.
    - unfold isDragged. apply bool_decide_eq_true. exact Hidd.
    - intros c' Hc' Hp. apply Hshown in Hc' as (c & Hc & ->).
      unfold isDragged in Hp. apply bool_decide_eq_true in Hp.
      rewrite swapPositions_id in Hp.
      rewrite (unique_id_elem comps c d Hnd Hc Hdin) by congruence. exact Hd'. }
  assert (Hft' : find (isTarget componentId (x (position d)) (y (position d))) shown
                 = Some t').
  { apply find_only.
    - apply Hshown. exists t. auto.
    - unfold isTarget, t'. simpl. rewrite !andb_true_iff, !bool_decide_eq_true.
      repeat split; auto; lia.
    - intros c' Hc' Hp. apply Hshown in Hc' as (c & Hc & ->).
      unfold isTarget in Hp. rewrite !andb_true_iff, !bool_decide_eq_true in Hp.
      destruct Hp as [[[Hcid Hcy] Hcl] Hcr].
      rewrite swapPositions_id in Hcid.
      destruct (decide (id c = id t)) as [Hct | Hct].
      + rewrite (unique_id_elem comps c t Hnd Hc Htin Hct). exact Ht'.
      + exfalso. unfold swapPositions in Hcy, Hcl, Hcr.
        rewrite decide_False in Hcy, Hcl, Hcr by exact Hcid.
        rewrite decide_False in Hcy, Hcl, Hcr by exact Hct.
        apply list_elem_of_lookup in Hc as [j Hj].
        apply (Hno j di c d); auto.
        * intros ->. congruence.
        * split; [exact Hcy |]. exists (x (position d)). unfold covers. lia. }
  assert (Hround : swapPositions componentId d' t' <$> updated = comps).
  { unfold updated. rewrite <- list_fmap_compose.
    rewrite <- (list_fmap_id comps) at 2. apply list_fmap_ext.
    intros i c Hc. simpl.
    unfold swapPositions at 2.
    destruct (decide (id c = componentId)) as [Hcd | Hcd].
    - assert (i = di) by (eapply unique_id_lookup; eauto; congruence).
      subst i. replace c with d in * by congruence.
      unfold swapPositions. rewrite decide_True by exact Hcd.
      now apply withPosition_back.
    - destruct (decide (id c = id t)) as [Hct | Hct].
      + assert (i = ti) by (eapply unique_id_lookup; eauto).
        subst i. replace c with t in * by congruence.
        unfold swapPositions. rewrite decide_False by exact Hcd.
        rewrite decide_True by reflexivity.
        now apply withPosition_back.
      + unfold swapPositions. unfold t'. simpl.
        repeat case_decide; try contradiction; reflexivity. }
  exists updated, (swapPositions componentId d' t' <$> shown).
  split; [unfold handleComponentReorder; now rewrite Hfd, Hft |].
  split; [fold shown; unfold handleComponentReorder; now rewrite Hgrid, Hfd', Hft' |].
  symmetry. apply sorted_arrangement_unique.
  - apply Sorted_StronglySorted; [apply rowMajor_Transitive | exact Hsorted].
  - apply Sorted_StronglySorted; [apply rowMajor_Transitive | apply Array_sort_Sorted].
  - rewrite Array_sort_Permutation. unfold shown.
    rewrite (Array_sort_Permutation updated). now rewrite Hround.
  - now apply noOverlap_positions_NoDup.
Qed.

Lemma swap_back_restores_witness :
  exists updated back,
    handleComponentReorder sampleComponents "sample-text-2" 2 1 = Some updated
    /\ handleComponentReorder (Array_sort updated) "sample-text-2" 6 1 = Some back
    /\ Array_sort back = sampleComponents.
Proof.
  pose (fallback := createComponent text 0 []).
  refine (swap_back_restores sampleComponents "sample-text-2" 2 1
            (nth 2 sampleComponents fallback) (nth 1 sampleComponents fallback)
            _ _ _ _ _ _ _ _).
  - replace sampleComponents with (Array_sort sampleComponents) by (vm_compute; reflexivity).
    apply Array_sort_Sorted.
  - apply (bool_decide_unpack _). vm_compute. exact I.
  - apply noOverlapb_sound. vm_compute. reflexivity.
  - repeat constructor.
  - vm_compute. reflexivity.
  - vm_compute. reflexivity.
  - vm_compute. split; discriminate.
  - vm_compute. discriminate.
Defined.
